(** * ttyd: the terminal helper daemon's history store

    A shallow embedding of [src/ttyd/ttyd.c]: the per-(process, terminal)
    history lists ([struct hist], [struct line]), the request dispatch
    [handlehist], the lookup [findhist], the sweep [cleanup] and the body of
    the request loop of [main].

    The history lines of a session form a doubly linked list of heap cells;
    [hist.lines] points to the newest cell and [hist.current] into the list.
    The cells live in a heap ([gmap positive line]); a pointer is an
    [option positive], [None] being [NULL].  Reading through a pointer that
    is not allocated is undefined in C: the embedded functions then return
    [None].

    Outside the model: the out-of-memory exits (allocation is taken to
    succeed), [open]/[close] of the terminal, the diagnostic that [cleanup]
    prints on stdout, and the failure paths of the request [ioctl]. *)

From stdpp Require Import gmap list strings.
From Stdlib Require Import ZArith Ascii.

Local Open Scope Z_scope.

(** ** Data *)

Abbreviation ptr := (option positive).

(** [struct line]: one history line, linked to the older line ([prev]) and
    to the newer one ([next]).  [text] is the C string the cell owns, without
    its terminator. *)
Record line := Line {
  prev : ptr;
  text : string;
  next : ptr
}.

(** [struct hist]: the history of one process on one terminal.  The [next]
    field of the C struct is the list the sessions are kept in. *)
Record hist := Hist {
  pid : Z;
  dev : Z;
  lines : ptr;      (* last history line for this pid & dev *)
  current : ptr     (* current line, if any *)
}.

(** [struct ttylist]: a terminal's name and device number (the C field is
    [dev]; the list is the [next] chain). *)
Record ttylist := Ttylist {
  name : string;
  tty_dev : Z
}.

(** Modelled from the spec: the request codes come from the terminal
    driver's header, which is not among the sources.  The three codes that
    [handlehist] names are constructors; every other value of [th_request]
    is [TH_OTHER] with its number. *)
Inductive th_request_t :=
  | TH_HIST_KEEP
  | TH_HIST_PREV
  | TH_HIST_NEXT
  | TH_OTHER (code : Z).

(** [struct ttyhelper], the request the driver hands over.  Its declaration
    is in the driver's header; the fields are the ones that [main] and
    [handlehist] read.  [th_info] holds the bytes of the line and [th_len]
    says how many of them count; the bytes after the end of [th_info] read
    as NUL. *)
Record ttyhelper := Ttyhelper {
  th_request : th_request_t;
  th_pid : Z;
  th_tty : Z;
  th_len : nat;
  th_info : string
}.

(** [struct ttyinput], the argument of [TIOCSINPUT], with the fields that
    [handlehist] sets. *)
Record ttyinput := Ttyinput {
  ti_len : nat;
  ti_text : string;
  ti_magic : Z
}.

(** What a request makes the daemon do to the outside.  The two reports on
    [stderr] are kept with the values they are about, not with the text of
    the message: [Stderr_unknown_tty] carries the [th_tty] of the request,
    which the message shows converted to [int]. *)
Inductive event :=
  | Write_bell                               (* beep: write (fd, "\a", 1) *)
  | Ioctl_TIOCTOEOL
  | Ioctl_TIOCSINPUT (ti : ttyinput)
  | Stderr_unknown_request (code : Z) (tty : string)
  | Stderr_unknown_tty (tty : Z).

#[global] Instance line_eq_dec : EqDecision line.
Proof. solve_decision. Defined.
#[global] Instance hist_eq_dec : EqDecision hist.
Proof. solve_decision. Defined.

Definition set_lines (h : hist) (p : ptr) : hist :=
  {| pid := pid h; dev := dev h; lines := p; current := current h |}.

Definition set_current (h : hist) (p : ptr) : hist :=
  {| pid := pid h; dev := dev h; lines := lines h; current := p |}.

Definition set_next (l : line) (p : ptr) : line :=
  {| prev := prev l; text := text l; next := p |}.

(** ** C strings *)

Definition NUL : ascii := Ascii.zero.

(** The C string that [strncpy (dst, src, n); dst[n] = '\0'] leaves in
    [dst]: the first [n] bytes of [src], up to the first NUL among them. *)
Fixpoint strncpy (src : string) (n : nat) : string :=
  match n, src with
  | S n', String c src' =>
      if Ascii.eqb c NUL then EmptyString else String c (strncpy src' n')
  | _, _ => EmptyString
  end.

(** What [handlehist] keeps of a line [s] of [String.length s] bytes. *)
Definition stored_text (s : string) : string := strncpy s (String.length s).

(** No NUL byte in the string. *)
Fixpoint nul_free (s : string) : bool :=
  match s with
  | EmptyString => true
  | String c s' => negb (Ascii.eqb c NUL) && nul_free s'
  end.

(** ** The spec's names for what the terminal gets *)

Definition deliverText (t : string) : list event :=
  [Ioctl_TIOCTOEOL;
   Ioctl_TIOCSINPUT {| ti_len := String.length t; ti_text := t; ti_magic := 0 |}].

Definition deliverEmpty : list event :=
  [Ioctl_TIOCTOEOL;
   Ioctl_TIOCSINPUT {| ti_len := 0; ti_text := EmptyString; ti_magic := 0 |}].

Definition signalAlert : list event := [Write_bell].

Definition noDelivery : list event := [].

Definition invalidRequest (code : Z) (tty : string) : list event :=
  [Stderr_unknown_request code tty].

(** The three requests of the spec, as the driver sends them. *)
Definition Record_request (p d : Z) (t : string) : ttyhelper :=
  {| th_request := TH_HIST_KEEP; th_pid := p; th_tty := d;
     th_len := String.length t; th_info := t |}.

Definition StepOlder_request (p d : Z) : ttyhelper :=
  {| th_request := TH_HIST_PREV; th_pid := p; th_tty := d;
     th_len := 0; th_info := EmptyString |}.

Definition StepNewer_request (p d : Z) : ttyhelper :=
  {| th_request := TH_HIST_NEXT; th_pid := p; th_tty := d;
     th_len := 0; th_info := EmptyString |}.

(** ** The liveness probe *)

Definition ESRCH : Z := 3.

(** [kill (pid, 0)] is an oracle [kill pid sig] giving the return value and
    the [errno] it leaves.  The session is reaped when the call fails with
    [ESRCH]. *)
Definition no_such_process (kill : Z → Z → Z * Z) (h : hist) : bool :=
  let '(r, errno) := kill (pid h) 0 in
  negb (r =? 0) && (errno =? ESRCH).

(** ** The code *)

(** [totty:] in [handlehist]: put the current line, or the empty line when
    there is none, into the terminal's input buffer. *)
Definition totty (m : gmap positive line) (h : hist)
  : option (gmap positive line * hist * list event) :=
  ti ← match current h with
       | Some c =>
           lc ← m !! c;
           Some {| ti_len := String.length (text lc); ti_text := text lc;
                   ti_magic := 0 |}
       | None => Some {| ti_len := 0; ti_text := EmptyString; ti_magic := 0 |}
       end;
  Some (m, h, [Ioctl_TIOCTOEOL; Ioctl_TIOCSINPUT ti]).

(** The loop of [cleanup] that frees the lines of a session, newest first.
    Every round frees one allocated cell, so [fuel] as large as the heap is
    enough; a cell that is not allocated makes the round undefined. *)
Fixpoint free_lines (fuel : nat) (m : gmap positive line) (p : ptr)
  : option (gmap positive line) :=
  match p with
  | None => Some m
  | Some a =>
      match fuel with
      | O => None
      | S fuel' => l ← m !! a; free_lines fuel' (delete a m) (prev l)
      end
  end.

(** [findhist]: the first session with this process and device, by its
    position in the list; a new empty one is put at the head when there is
    none. *)
Fixpoint lookup_hist (hs : list hist) (p d : Z) : option nat :=
  match hs with
  | [] => None
  | h :: hs' =>
      if (pid h =? p) && (dev h =? d) then Some O
      else S <$> lookup_hist hs' p d
  end.

Definition findhist (hs : list hist) (p d : Z) : list hist * nat :=
  match lookup_hist hs p d with
  | Some i => (hs, i)
  | None =>
      ({| pid := p; dev := d; lines := None; current := None |} :: hs, O)
  end.

(** [cleanup]: drop the sessions whose process is gone and free their
    lines. *)
Fixpoint cleanup (kill : Z → Z → Z * Z) (m : gmap positive line)
    (hs : list hist) : option (gmap positive line * list hist) :=
  match hs with
  | [] => Some (m, [])
  | h :: hs' =>
      if no_such_process kill h then
        m' ← free_lines (size m) m (lines h);
        cleanup kill m' hs'
      else
        '(m', hs'') ← cleanup kill m hs';
        Some (m', h :: hs'')
  end.

(** ** The shape of a history *)

(** [dseg m p cs n]: the cells [cs], oldest first and each with its text,
    are allocated in [m] and linked in both directions; [p] is the [prev] of
    the oldest and [n] the [next] of the newest. *)
Fixpoint dseg (m : gmap positive line) (p : ptr)
    (cs : list (positive * string)) (n : ptr) : Prop :=
  match cs with
  | [] => True
  | c :: cs' =>
      m !! c.1 =
        Some {| prev := p; text := c.2;
                next := match cs' with [] => n | c' :: _ => Some c'.1 end |}
      ∧ dseg m (Some c.1) cs' n
  end.

(** The whole chain of a session: nothing older than the first cell and
    nothing newer than the last. *)
Definition chain (m : gmap positive line) (cs : list (positive * string))
  : Prop :=
  dseg m None cs None.

(** The pointer to the newest cell ([NULL] for the empty chain). *)
Definition newest (cs : list (positive * string)) : ptr := fst <$> last cs.

(** The cursor is [NULL] (at the bottom) or points to a cell of the chain. *)
Definition cursor_ok (h : hist) (cs : list (positive * string)) : Prop :=
  match current h with
  | None => True
  | Some a => a ∈ cs.*1
  end.

(** A session [h] whose history is the chain [cs]. *)
Definition session_inv (m : gmap positive line) (h : hist)
    (cs : list (positive * string)) : Prop :=
  chain m cs ∧ lines h = newest cs ∧ cursor_ok h cs.

(** The addresses of all the cells of the sessions [ss]. *)
Definition cells (ss : list (hist * list (positive * string)))
  : list positive :=
  (concat ss.*2).*1.

(** The store: every session with its chain, no cell in two places. *)
Definition store_inv (m : gmap positive line)
    (ss : list (hist * list (positive * string))) : Prop :=
  Forall (λ s, session_inv m s.1 s.2) ss ∧ NoDup (cells ss).

#[global] Instance dseg_dec m p cs n : Decision (dseg m p cs n).
Proof. revert p. induction cs as [|c cs IH]; intros p; simpl; apply _. Defined.
#[global] Instance chain_dec m cs : Decision (chain m cs).
Proof. unfold chain. apply _. Defined.
#[global] Instance cursor_ok_dec h cs : Decision (cursor_ok h cs).
Proof. unfold cursor_ok. destruct (current h); apply _. Defined.
#[global] Instance session_inv_dec m h cs : Decision (session_inv m h cs).
Proof. unfold session_inv. apply _. Defined.
#[global] Instance store_inv_dec m ss : Decision (store_inv m ss).
Proof. unfold store_inv. apply _. Defined.

(** ** The terminals: [findttys] *)

(** One entry that [readdir] returns for the device directory, with what
    [stat] on its name gives: the [st_rdev] of the file, or [None] when
    [stat] fails. *)
Record dirent := Dirent {
  d_name : string;
  st_rdev : option Z
}.

(** [strncmp (s1, s2, n)]: the difference of the first bytes that differ
    among the first [n], 0 when there is none; the comparison stops at a NUL
    byte, which is also what ends a string. *)
Fixpoint strncmp (s1 s2 : string) (n : nat) {struct n} : Z :=
  match n with
  | O => 0
  | S n' =>
      match s1, s2 with
      | EmptyString, EmptyString => 0
      | EmptyString, String c2 _ => - Z.of_nat (nat_of_ascii c2)
      | String c1 _, EmptyString => Z.of_nat (nat_of_ascii c1)
      | String c1 s1', String c2 s2' =>
          if Ascii.eqb c1 c2 then
            if Ascii.eqb c1 NUL then 0 else strncmp s1' s2' n'
          else Z.of_nat (nat_of_ascii c1) - Z.of_nat (nat_of_ascii c2)
      end
  end.

(** The test of [findttys] on a name of the device directory. *)
Definition tty_name (nm : string) : bool :=
  (strncmp nm "tty" 3 =? 0) || (strncmp nm "cons" 4 =? 0).

(** The [readdir] loop of [findttys]: every entry whose name passes the test
    is put in front of the list with its device number.  [None] is
    [exit (EXIT_FAILURE)], taken when [stat] fails on such an entry. *)
Fixpoint findttys_loop (des : list dirent) (tl : list ttylist)
  : option (list ttylist) :=
  match des with
  | [] => Some tl
  | de :: des' =>
      if tty_name (d_name de) then
        match st_rdev de with
        | Some rdev =>
            findttys_loop des' ({| name := d_name de; tty_dev := rdev |} :: tl)
        | None => None
        end
      else findttys_loop des' tl
  end.

(** [findttys], given what [opendir] and [readdir] give for the device
    directory: [None] for a directory that cannot be opened.  The result
    [None] is [exit (EXIT_FAILURE)]. *)
Definition findttys (dir : option (list dirent)) : option (list ttylist) :=
  match dir with
  | Some des => findttys_loop des []
  | None => None
  end.

(** What the list of terminals gets for a directory entry, if anything. *)
Definition tty_entry (de : dirent) : option ttylist :=
  if tty_name (d_name de) then
    (λ rdev, {| name := d_name de; tty_dev := rdev |}) <$> st_rdev de
  else None.

(** The loop of [main] that looks for the terminal of a request. *)
Definition findtty (tl : list ttylist) (d : Z) : option ttylist :=
  find (λ t, bool_decide (tty_dev t = d)) tl.

(** ** More about the store *)

(** The key of a session. *)
Definition key (h : hist) : Z * Z := (pid h, dev h).

(** Every allocated cell is a cell of a session. *)
Definition no_leak (m : gmap positive line)
    (ss : list (hist * list (positive * string))) : Prop :=
  ∀ a, is_Some (m !! a) → a ∈ cells ss.

(** Every text in the heap is free of NUL bytes, so that [strlen] sees all
    of it. *)
Definition texts_nul_free (m : gmap positive line) : Prop :=
  ∀ a l, m !! a = Some l → nul_free (text l) = true.

(** ** The rounds of the loop of [main] *)

(** What [ioctl (cons, TIOCHELPER, &th)] gives: a request, or a failure
    with its [errno]. *)
Inductive ioctl_result :=
  | TIOCHELPER_ok (th : ttyhelper)
  | TIOCHELPER_err (errno : Z).

Definition EPERM : Z := 1.
Definition E2BIG : Z := 7.
Definition ENOTTY : Z := 25.

(** What a round of the loop does to the outside. *)
Inductive main_event :=
  | Open_console
  | Close_console
  | Request_event (e : event)
  | Stderr_not_root
  | Stderr_ioctl (errno : Z)
  | Sleep_1.

(** What a round has to go on: the answer of the [ioctl], the time when it
    returns, the processes alive then, and what reporting a failure of the
    [ioctl] does to [errno]: [Some e] when [strerror] or [fprintf] sets it to
    [e], [None] when they leave it as the [ioctl] set it. *)
Record round_input := Round_input {
  ri_ioctl : ioctl_result;
  ri_now : Z;
  ri_kill : Z → Z → Z * Z;
  ri_report : option Z
}.

(** How a round ends: the loop goes on with the buffer size and the store,
    the daemon exits, or the round is undefined (a read through a pointer
    that is not allocated, or [size *= 2] beyond [INT_MAX]). *)
Inductive round_outcome :=
  | Next_round (size : Z) (m : gmap positive line) (hs : list hist)
      (log : list main_event)
  | Exit_failure (log : list main_event)
  | Undefined_round.

(** The requests that the loop discards as stale. *)
Definition discarded (starttime : Z) (inp : round_input) : bool :=
  match ri_ioctl inp with
  | TIOCHELPER_ok _ => ri_now inp <=? starttime + 2
  | TIOCHELPER_err _ => false
  end.

(** The rounds in which the buffer was too small. *)
Definition too_big (inp : round_input) : bool :=
  match ri_ioctl inp with
  | TIOCHELPER_ok _ => false
  | TIOCHELPER_err errno => negb (errno =? EPERM) && (errno =? E2BIG)
  end.

(** The opens and the closes of the console among the events. *)
Definition is_open (e : main_event) : bool :=
  match e with Open_console => true | _ => false end.

Definition is_close (e : main_event) : bool :=
  match e with Close_console => true | _ => false end.

(** ** An allocator, a terminal and sample states *)

(** An address that is not in use. *)
Definition next_free (m : gmap positive line) : positive := fresh (dom m).

Definition ttyp0 : ttylist := {| name := "ttyp0"; tty_dev := 5 |}.

Definition new_session : hist :=
  {| pid := 100; dev := 5; lines := None; current := None |}.

(** The heap after [ls] and [pwd] were recorded for process 100. *)
Definition ls_pwd : gmap positive line :=
  {[ 1%positive := {| prev := None; text := "ls"; next := Some 2%positive |};
     2%positive := {| prev := Some 1%positive; text := "pwd"; next := None |} ]}.

Definition ls_pwd_cells : list (positive * string) :=
  [(1%positive, "ls"); (2%positive, "pwd")].

Definition at_bottom : hist :=
  {| pid := 100; dev := 5; lines := Some 2%positive; current := None |}.

Definition on_pwd : hist :=
  {| pid := 100; dev := 5; lines := Some 2%positive;
     current := Some 2%positive |}.

Definition on_ls : hist :=
  {| pid := 100; dev := 5; lines := Some 2%positive;
     current := Some 1%positive |}.

(** A second process on the same terminal, with one line of its own. *)
Definition two_sessions : gmap positive line :=
  <[ 3%positive := {| prev := None; text := "make"; next := None |} ]> ls_pwd.

Definition other_session : hist :=
  {| pid := 200; dev := 5; lines := Some 3%positive;
     current := Some 3%positive |}.

Definition two_sessions_cells
  : list (hist * list (positive * string)) :=
  [(on_pwd, ls_pwd_cells); (other_session, [(3%positive, "make")])].

(** Every process is alive. *)
Definition all_alive (p s : Z) : Z * Z := (0, 0).

(** Process 100 is gone; signalling any other is not permitted. *)
Definition only_100_gone (p s : Z) : Z * Z :=
  if p =? 100 then (-1, ESRCH) else (-1, 1).

(** A line that starts with a NUL byte. *)
Definition nul_ls : string := String NUL "ls".

(** The device directory: the console and [ttyp0] are the same device. *)
Definition dev_dir : list dirent :=
  [ {| d_name := "null"; st_rdev := None |};
    {| d_name := "console"; st_rdev := Some 5 |};
    {| d_name := "tty0"; st_rdev := Some 1024 |};
    {| d_name := "ttyp0"; st_rdev := Some 5 |} ].

(** Four rounds: the buffer is too small, a request comes too early, [ls]
    is recorded, the console is not a terminal. *)
Definition four_rounds : list round_input :=
  [ {| ri_ioctl := TIOCHELPER_err E2BIG; ri_now := 0; ri_kill := all_alive;
       ri_report := None |};
    {| ri_ioctl := TIOCHELPER_ok (Record_request 100 5 "ls"); ri_now := 1;
       ri_kill := all_alive; ri_report := None |};
    {| ri_ioctl := TIOCHELPER_ok (Record_request 100 5 "ls"); ri_now := 10;
       ri_kill := all_alive; ri_report := None |};
    {| ri_ioctl := TIOCHELPER_err ENOTTY; ri_now := 11;
       ri_kill := all_alive; ri_report := None |} ].

(** Settle a decidable statement about sample states by evaluation. *)
Ltac by_evaluation := apply (bool_decide_unpack _); vm_compute; exact I.

Section Daemon.

(** [malloc (sizeof (struct line))]: the address of the new cell, given the
    cells that are allocated.  It is not one of them. *)
Variable malloc : gmap positive line → positive.
Hypothesis malloc_fresh : ∀ m, m !! malloc m = None.

(** [handlehist]: store or retrieve a line on the history list. *)
Definition handlehist (m : gmap positive line) (th : ttyhelper) (h : hist)
    (t : ttylist) : option (gmap positive line * hist * list event) :=
  match th_request th with
  | TH_HIST_KEEP =>
      '(m', h') ←
        (if decide (th_len th = O) then Some (m, h)
         else
           let l := malloc m in
           let m1 :=
             <[l := {| prev := lines h;
                       text := strncpy (th_info th) (th_len th);
                       next := None |}]> m in
           m2 ← match lines h with
                | Some b => lb ← m1 !! b; Some (<[b := set_next lb (Some l)]> m1)
                | None => Some m1
                end;
           Some (m2, set_lines h (Some l)));
      Some (m', set_current h' None, [])
  | TH_HIST_PREV =>
      match current h with
      | None =>
          match lines h with
          | Some _ => totty m (set_current h (lines h))
          | None => Some (m, h, [Write_bell])
          end
      | Some c =>
          lc ← m !! c;
          match prev lc with
          | Some _ => totty m (set_current h (prev lc))
          | None => Some (m, h, [])
          end
      end
  | TH_HIST_NEXT =>
      match current h with
      | None => Some (m, h, [Write_bell])
      | Some c => lc ← m !! c; totty m (set_current h (next lc))
      end
  | TH_OTHER code => Some (m, h, [Stderr_unknown_request code (name t)])
  end.

(** The body of the loop of [main] for a request [th] the driver handed
    over at time [now]. *)
Definition main_iteration (tl : list ttylist) (kill : Z → Z → Z * Z)
    (starttime now : Z) (th : ttyhelper) (m : gmap positive line)
    (hs : list hist) : option (gmap positive line * list hist * list event) :=
  if now <=? starttime + 2 then Some (m, hs, [])
  else
    match find (λ t, bool_decide (tty_dev t = th_tty th)) tl with
    | Some t =>
        let '(hs1, i) := findhist hs (th_pid th) (th_tty th) in
        h ← hs1 !! i;
        '(m1, h', out) ← handlehist m th h t;
        '(m2, hs2) ← cleanup kill m1 (<[i := h']> hs1);
        Some (m2, hs2, out)
    | None => Some (m, hs, [Stderr_unknown_tty (th_tty th)])
    end.

(** A sequence of requests for one session, [handlehist] on each in turn;
    the results are the events of each request. *)
Fixpoint handlehist_seq (m : gmap positive line) (ths : list ttyhelper)
    (h : hist) (t : ttylist)
  : option (gmap positive line * hist * list (list event)) :=
  match ths with
  | [] => Some (m, h, [])
  | th :: ths' =>
      '(m1, h1, out) ← handlehist m th h t;
      '(m2, h2, outs) ← handlehist_seq m1 ths' h1 t;
      Some (m2, h2, out :: outs)
  end.

(** The states of the daemon: it starts with no session and serves one
    request after the other, whatever the terminals, the processes alive
    and the clock are at each. *)
Inductive reachable : gmap positive line * list hist → Prop :=
  | reachable_start : reachable (∅, [])
  | reachable_request tl kill starttime now th m hs m' hs' out :
      reachable (m, hs) →
      main_iteration tl kill starttime now th m hs = Some (m', hs', out) →
      reachable (m', hs').

(** ** The whole loop of [main] *)

(** One round of the loop of [main]; [int_max] is [INT_MAX].  The test for
    [ENOTTY] comes after the report on [stderr] and reads [errno] as the
    report left it. *)
Definition main_round (int_max : Z) (tl : list ttylist) (starttime size : Z)
    (m : gmap positive line) (hs : list hist) (inp : round_input)
  : round_outcome :=
  match ri_ioctl inp with
  | TIOCHELPER_ok th =>
      if ri_now inp <=? starttime + 2 then
        (* continue: the console is not closed *)
        Next_round size m hs [Open_console]
      else
        match main_iteration tl (ri_kill inp) starttime (ri_now inp) th m hs with
        | Some (m', hs', out) =>
            Next_round size m' hs'
              (Open_console :: (Request_event <$> out) ++ [Close_console])
        | None => Undefined_round
        end
  | TIOCHELPER_err errno =>
      if errno =? EPERM then Exit_failure [Open_console; Stderr_not_root]
      else if errno =? E2BIG then
        if size * 2 <=? int_max then
          Next_round (size * 2) m hs [Open_console; Close_console]
        else Undefined_round
      else
        Next_round size m hs
          ([Open_console; Stderr_ioctl errno] ++
           (if default errno (ri_report inp) =? ENOTTY then [Sleep_1] else []) ++
           [Close_console])
  end.

(** The first rounds of the loop, one for each input. *)
Fixpoint main_loop (int_max : Z) (tl : list ttylist) (starttime size : Z)
    (m : gmap positive line) (hs : list hist) (inps : list round_input)
  : round_outcome :=
  match inps with
  | [] => Next_round size m hs []
  | inp :: inps' =>
      match main_round int_max tl starttime size m hs inp with
      | Next_round size' m' hs' log =>
          match main_loop int_max tl starttime size' m' hs' inps' with
          | Next_round size'' m'' hs'' log' =>
              Next_round size'' m'' hs'' (log ++ log')
          | Exit_failure log' => Exit_failure (log ++ log')
          | Undefined_round => Undefined_round
          end
      | Exit_failure log => Exit_failure log
      | Undefined_round => Undefined_round
      end
  end.

(** ** C strings *)

Lemma strncpy_nul_free (s : string) :
  nul_free s = true → strncpy s (String.length s) = s.
Proof.
  induction s as [|c s IH]; simpl; [done|].
  destruct (Ascii.eqb c NUL); simpl; [done|].
  intros Hs. by rewrite IH.
Qed.

(** ** Linked cells *)

Lemma dseg_lookup m p cs n i a x :
  dseg m p cs n → cs !! i = Some (a, x) →
  m !! a = Some {| prev := match i with O => p | S j => fst <$> cs !! j end;
                   text := x;
                   next := match cs !! S i with
                           | Some c => Some c.1
                           | None => n
                           end |}.
Proof.
  revert p i. induction cs as [|c cs IH]; intros p i; simpl; [done|].
  intros [Hc Hcs] Hi. destruct i as [|i]; simpl in *.
  - injection Hi as ->. simpl in Hc. rewrite Hc. by destruct cs.
  - rewrite (IH _ _ Hcs Hi). by destruct i.
Qed.

Lemma dseg_allocated m p cs n a :
  dseg m p cs n → a ∈ cs.*1 → is_Some (m !! a).
Proof.
  intros Hseg Ha. apply list_elem_of_fmap in Ha as ([a' x] & -> & Hc).
  apply list_elem_of_lookup in Hc as [i Hi]. simpl.
  rewrite (dseg_lookup _ _ _ _ _ _ _ Hseg Hi). eauto.
Qed.

Lemma dseg_frame m m' p cs n :
  dseg m p cs n → (∀ a, a ∈ cs.*1 → m' !! a = m !! a) → dseg m' p cs n.
Proof.
  revert p. induction cs as [|c cs IH]; intros p; simpl; [done|].
  intros [Hc Hcs] Hsame. split.
  - rewrite Hsame; [done|]. left.
  - apply IH; [done|]. intros a Ha. apply Hsame. by right.
Qed.

Lemma dseg_app m p cs1 cs2 n :
  dseg m p (cs1 ++ cs2) n ↔
  dseg m p cs1 (match cs2 with [] => n | c :: _ => Some c.1 end) ∧
  dseg m (match last cs1 with None => p | Some c => Some c.1 end) cs2 n.
Proof.
  revert p. induction cs1 as [|c cs1 IH]; intros p; simpl; [tauto|].
  rewrite IH. rewrite last_cons.
  assert ((match cs1 ++ cs2 with [] => n | c' :: _ => Some c'.1 end) =
          (match cs1 with
           | [] => match cs2 with [] => n | c' :: _ => Some c'.1 end
           | c' :: _ => Some c'.1
           end)) as -> by (by destruct cs1).
  destruct (last cs1); tauto.
Qed.

(** The cells of a segment are pairwise different, unless the segment runs
    into itself at its newer end. *)
Lemma dseg_NoDup m p cs n :
  dseg m p cs n → (∀ a, n = Some a → a ∉ cs.*1) → NoDup cs.*1.
Proof.
  revert p. induction cs as [|c cs IH]; intros p; simpl; [constructor|].
  intros [Hc Hcs] Hn.
  assert (NoDup cs.*1) as Hnd.
  { apply (IH _ Hcs). intros a Ha Hin. apply (Hn a Ha). by right. }
  constructor; [|done].
  intros Hin. apply list_elem_of_fmap in Hin as ([a' y] & Ha' & Hin).
  simpl in Ha'. subst a'.
  apply list_elem_of_lookup in Hin as [j Hj].
  pose proof (dseg_lookup _ _ _ _ _ _ _ Hcs Hj) as Hl.
  rewrite Hc in Hl. injection Hl as _ _ Hnext.
  destruct cs as [|c' cs']; [done|].
  destruct ((c' :: cs') !! S j) as [c''|] eqn:Hj'.
  - injection Hnext as Hnext.
    assert ((c' :: cs').*1 !! O = Some c'.1) as H0 by done.
    assert ((c' :: cs').*1 !! S j = Some c'.1) as H1.
    { rewrite list_lookup_fmap, Hj'. simpl. by rewrite Hnext. }
    pose proof (NoDup_lookup _ _ _ _ Hnd H0 H1). done.
  - apply (Hn c'.1); [done|]. right. left.
Qed.

Lemma chain_NoDup m cs : chain m cs → NoDup cs.*1.
Proof. intros Hc. by apply (dseg_NoDup _ _ _ _ Hc). Qed.

Lemma newest_snoc cs a x : newest (cs ++ [(a, x)]) = Some a.
Proof. unfold newest. by rewrite last_snoc. Qed.

Lemma list_nil_or_snoc {A} (l : list A) : l = [] ∨ ∃ l' x, l = l' ++ [x].
Proof. destruct l as [|x l] using rev_ind; eauto. Qed.

Lemma chain_newest m a x cs' :
  chain m (cs' ++ [(a, x)]) →
  m !! a = Some {| prev := newest cs'; text := x; next := None |}.
Proof.
  intros Hc.
  assert ((cs' ++ [(a, x)]) !! length cs' = Some (a, x)) as Hi
    by (by rewrite list_lookup_middle).
  rewrite (dseg_lookup _ _ _ _ _ _ _ Hc Hi).
  rewrite (lookup_ge_None_2 _ (S (length cs'))) by (rewrite length_app; simpl; lia).
  f_equal. f_equal. unfold newest. rewrite last_lookup.
  destruct (length cs') as [|k] eqn:Hlen; simpl.
  - by destruct cs'.
  - rewrite lookup_app_l by lia. done.
Qed.

Lemma cursor_cell h cs a :
  cursor_ok h cs → current h = Some a → ∃ i x, cs !! i = Some (a, x).
Proof.
  unfold cursor_ok. intros Hok Hcur. rewrite Hcur in Hok.
  apply list_elem_of_fmap in Hok as ([a' x] & -> & Hin).
  apply list_elem_of_lookup in Hin as [i Hi]. eauto.
Qed.

(** ** [totty] *)

Lemma totty_cell m h b l :
  m !! b = Some l →
  totty m (set_current h (Some b)) =
    Some (m, set_current h (Some b), deliverText (text l)).
Proof. intros Hb. unfold totty. simpl. by rewrite Hb. Qed.

Lemma totty_bottom m h :
  totty m (set_current h None) = Some (m, set_current h None, deliverEmpty).
Proof. done. Qed.

(** ** [TH_HIST_KEEP] *)

Lemma keep_appends m h cs p d n info t :
  session_inv m h cs → n ≠ O →
  ∃ m',
    handlehist m (Ttyhelper TH_HIST_KEEP p d n info) h t =
      Some (m', set_current (set_lines h (Some (malloc m))) None, noDelivery) ∧
    session_inv m' (set_current (set_lines h (Some (malloc m))) None)
      (cs ++ [(malloc m, strncpy info n)]) ∧
    (∀ b, b ∉ cs.*1 → b ≠ malloc m → m' !! b = m !! b).
Proof.
  intros (Hchain & Hlines & _) Hn.
  pose proof (malloc_fresh m) as Hfresh.
  unfold handlehist. simpl. rewrite decide_False by done.
  destruct (list_nil_or_snoc cs) as [->|(cs0 & [b y] & ->)].
  - rewrite Hlines. simpl. eexists. split; [done|]. split.
    + unfold session_inv, chain, cursor_ok. simpl.
      by rewrite lookup_insert_eq.
    + intros c _ Hc. by rewrite lookup_insert_ne.
  - rewrite Hlines, newest_snoc. simpl.
    pose proof (chain_newest _ _ _ _ Hchain) as Hb.
    assert (b ≠ malloc m) as Hba by (intros ->; congruence).
    rewrite lookup_insert_ne, Hb by done. simpl.
    eexists. split; [done|]. split.
    + pose proof (chain_NoDup _ _ Hchain) as Hnd.
      rewrite fmap_app in Hnd. apply NoDup_app in Hnd as (_ & Hdisj & _).
      apply dseg_app in Hchain as [Hcs0 _].
      split; [|split; [by rewrite newest_snoc|done]].
      unfold chain. rewrite <- app_assoc. apply dseg_app. split.
      * eapply dseg_frame; [exact Hcs0|]. intros c Hc.
        rewrite !lookup_insert_ne; [done| |].
        -- intros <-. destruct (dseg_allocated _ _ _ _ _ Hcs0 Hc). congruence.
        -- intros <-. apply (Hdisj _ Hc). simpl. left.
      * simpl. rewrite lookup_insert_eq.
        rewrite lookup_insert_ne, lookup_insert_eq by done.
        unfold set_next, newest. simpl. by destruct (last cs0).
    + intros c Hc Hca. rewrite !lookup_insert_ne; [done|done|].
      intros <-. apply Hc. rewrite fmap_app. apply elem_of_app. right. left.
Qed.

Lemma keep_empty m h p d info t :
  handlehist m (Ttyhelper TH_HIST_KEEP p d O info) h t =
    Some (m, set_current h None, noDelivery).
Proof. done. Qed.

(** ** [TH_HIST_PREV] *)

Lemma prev_empty m h p d n info t :
  current h = None → lines h = None →
  handlehist m (Ttyhelper TH_HIST_PREV p d n info) h t =
    Some (m, h, signalAlert).
Proof. intros Hcur Hl. unfold handlehist. simpl. by rewrite Hcur, Hl. Qed.

Lemma prev_bottom m h cs a x p d n info t :
  session_inv m h (cs ++ [(a, x)]) → current h = None →
  handlehist m (Ttyhelper TH_HIST_PREV p d n info) h t =
    Some (m, set_current h (Some a), deliverText x).
Proof.
  intros (Hchain & Hlines & _) Hcur. unfold handlehist. simpl.
  rewrite Hcur, Hlines, newest_snoc.
  by rewrite (totty_cell _ _ _ _ (chain_newest _ _ _ _ Hchain)).
Qed.

Lemma prev_older m h cs i a x b y p d n info t :
  session_inv m h cs → current h = Some a →
  cs !! S i = Some (a, x) → cs !! i = Some (b, y) →
  handlehist m (Ttyhelper TH_HIST_PREV p d n info) h t =
    Some (m, set_current h (Some b), deliverText y).
Proof.
  intros (Hchain & _ & _) Hcur Ha Hb. unfold handlehist. simpl.
  rewrite Hcur, (dseg_lookup _ _ _ _ _ _ _ Hchain Ha). simpl.
  rewrite Hb. simpl.
  by rewrite (totty_cell _ _ _ _ (dseg_lookup _ _ _ _ _ _ _ Hchain Hb)).
Qed.

Lemma prev_oldest m h cs a x p d n info t :
  session_inv m h cs → current h = Some a → cs !! O = Some (a, x) →
  handlehist m (Ttyhelper TH_HIST_PREV p d n info) h t =
    Some (m, h, noDelivery).
Proof.
  intros (Hchain & _ & _) Hcur Ha. unfold handlehist. simpl.
  by rewrite Hcur, (dseg_lookup _ _ _ _ _ _ _ Hchain Ha).
Qed.

(** ** [TH_HIST_NEXT] *)

Lemma next_bottom m h p d n info t :
  current h = None →
  handlehist m (Ttyhelper TH_HIST_NEXT p d n info) h t =
    Some (m, h, signalAlert).
Proof. intros Hcur. unfold handlehist. simpl. by rewrite Hcur. Qed.

Lemma next_newer m h cs i a x b y p d n info t :
  session_inv m h cs → current h = Some a →
  cs !! i = Some (a, x) → cs !! S i = Some (b, y) →
  handlehist m (Ttyhelper TH_HIST_NEXT p d n info) h t =
    Some (m, set_current h (Some b), deliverText y).
Proof.
  intros (Hchain & _ & _) Hcur Ha Hb. unfold handlehist. simpl.
  rewrite Hcur, (dseg_lookup _ _ _ _ _ _ _ Hchain Ha). simpl.
  rewrite Hb. simpl.
  by rewrite (totty_cell _ _ _ _ (dseg_lookup _ _ _ _ _ _ _ Hchain Hb)).
Qed.

Lemma next_newest m h cs i a x p d n info t :
  session_inv m h cs → current h = Some a →
  cs !! i = Some (a, x) → S i = length cs →
  handlehist m (Ttyhelper TH_HIST_NEXT p d n info) h t =
    Some (m, set_current h None, deliverEmpty).
Proof.
  intros (Hchain & _ & _) Hcur Ha Hlast. unfold handlehist. simpl.
  rewrite Hcur, (dseg_lookup _ _ _ _ _ _ _ Hchain Ha). simpl.
  by rewrite (lookup_ge_None_2 cs (S i)) by lia.
Qed.

(** ** Every request keeps the session well formed *)

Lemma set_current_inv m h cs c :
  session_inv m h cs → (∀ a, c = Some a → a ∈ cs.*1) →
  session_inv m (set_current h c) cs.
Proof.
  intros (Hchain & Hlines & _) Hc. repeat split; [done..|].
  unfold cursor_ok. simpl. destruct c; [by apply Hc|done].
Qed.

Lemma lookup_cell_elem (cs : list (positive * string)) i a x :
  cs !! i = Some (a, x) → a ∈ cs.*1.
Proof.
  intros Hi. apply list_elem_of_fmap. exists (a, x). split; [done|].
  by eapply list_elem_of_lookup_2.
Qed.

(** A step older or newer returns, and moves nothing but the cursor. *)
Lemma step_moves_cursor m h cs req p d n info t :
  session_inv m h cs → req = TH_HIST_PREV ∨ req = TH_HIST_NEXT →
  ∃ c out,
    handlehist m (Ttyhelper req p d n info) h t =
      Some (m, set_current h c, out) ∧
    (∀ a, c = Some a → a ∈ cs.*1).
Proof.
  intros Hinv Hreq.
  assert (h = set_current h (current h)) as Hh by (by destruct h).
  destruct (current h) as [a|] eqn:Hcur.
  - destruct (cursor_cell _ _ _ (proj2 (proj2 Hinv)) Hcur) as (i & x & Hi).
    destruct Hreq as [-> | ->].
    + destruct i as [|i].
      * exists (Some a), noDelivery. rewrite <- Hh.
        split; [by eapply prev_oldest|].
        intros ? [= <-]. by eapply lookup_cell_elem.
      * destruct (lookup_lt_is_Some_2 cs i) as [[b y] Hb].
        { apply lookup_lt_Some in Hi. lia. }
        exists (Some b), (deliverText y). split; [by eapply prev_older|].
        intros ? [= <-]. by eapply lookup_cell_elem.
    + destruct (cs !! S i) as [[b y]|] eqn:Hb.
      * exists (Some b), (deliverText y). split; [by eapply next_newer|].
        intros ? [= <-]. by eapply lookup_cell_elem.
      * exists None, deliverEmpty. split; [|done].
        eapply next_newest; [done..|].
        apply lookup_lt_Some in Hi. apply lookup_ge_None in Hb. lia.
  - destruct Hreq as [-> | ->].
    + destruct (list_nil_or_snoc cs) as [->|(cs0 & [b y] & ->)].
      * exists None, signalAlert. rewrite <- Hh. split; [|done].
        apply prev_empty; [done|]. by destruct Hinv as (_ & -> & _).
      * exists (Some b), (deliverText y). split; [by eapply prev_bottom|].
        intros ? [= <-]. rewrite fmap_app. apply elem_of_app. right. left.
    + exists None, signalAlert. rewrite <- Hh. split; [|done].
      by apply next_bottom.
Qed.

Lemma handlehist_inv m h cs th t :
  session_inv m h cs →
  ∃ m' h' out cs_new,
    handlehist m th h t = Some (m', h', out) ∧
    session_inv m' h' (cs ++ cs_new) ∧
    (∀ a, a ∈ cs_new.*1 → m !! a = None) ∧
    (∀ b, b ∉ cs.*1 → b ∉ cs_new.*1 → m' !! b = m !! b).
Proof.
  intros Hinv. destruct th as [req p d n info]. destruct req as [| | |code].
  - destruct n as [|n].
    + exists m, (set_current h None), noDelivery, [].
      rewrite app_nil_r. split; [apply keep_empty|].
      split; [by apply set_current_inv|]. split; [|done].
      intros a Ha. by apply elem_of_nil in Ha.
    + destruct (keep_appends m h cs p d (S n) info t Hinv) as (m' & He & Hi & Hf);
        [done|].
      eexists m', _, _, [_]. split; [exact He|]. split; [exact Hi|]. split.
      * intros a Ha. apply list_elem_of_singleton in Ha as ->.
        apply malloc_fresh.
      * intros b Hb Hb'. apply Hf; [done|]. intros ->. apply Hb'. left.
  - destruct (step_moves_cursor m h cs TH_HIST_PREV p d n info t Hinv)
      as (c & out & He & Hc); [by left|].
    exists m, (set_current h c), out, []. rewrite app_nil_r.
    split; [done|]. split; [by apply set_current_inv|]. split; [|done].
    intros a Ha. by apply elem_of_nil in Ha.
  - destruct (step_moves_cursor m h cs TH_HIST_NEXT p d n info t Hinv)
      as (c & out & He & Hc); [by right|].
    exists m, (set_current h c), out, []. rewrite app_nil_r.
    split; [done|]. split; [by apply set_current_inv|]. split; [|done].
    intros a Ha. by apply elem_of_nil in Ha.
  - exists m, h, (invalidRequest code (name t)), []. rewrite app_nil_r.
    split; [done|]. split; [done|]. split; [|done].
    intros a Ha. by apply elem_of_nil in Ha.
Qed.

(** ** Freeing a chain *)

Lemma free_lines_chain fuel m (cs : list (positive * string)) :
  (∀ i a x, cs !! i = Some (a, x) →
     ∃ l, m !! a = Some l ∧
          prev l = match i with O => None | S j => fst <$> cs !! j end) →
  NoDup cs.*1 → (length cs ≤ fuel)%nat →
  ∃ m', free_lines fuel m (newest cs) = Some m' ∧
        ∀ b, m' !! b = if decide (b ∈ cs.*1) then None else m !! b.
Proof.
  revert fuel m. induction cs as [|[a x] cs IH] using rev_ind;
    intros fuel m Hcells Hnd Hlen.
  - exists m. split; [by destruct fuel|]. intros b.
    rewrite decide_False; [done|]. apply not_elem_of_nil.
  - rewrite length_app in Hlen. simpl in Hlen.
    destruct fuel as [|fuel]; [lia|].
    rewrite newest_snoc. simpl.
    destruct (Hcells (length cs) a x) as (l & Hl & Hprev);
      [by rewrite list_lookup_middle|].
    rewrite Hl. simpl.
    rewrite fmap_app in Hnd. apply NoDup_app in Hnd as (Hnd & Hdisj & _).
    assert (prev l = newest cs) as ->.
    { rewrite Hprev. unfold newest. rewrite last_lookup.
      destruct (length cs) as [|k] eqn:Hk; simpl; [by destruct cs|].
      rewrite lookup_app_l by lia. done. }
    destruct (IH fuel (delete a m)) as (m' & Hfree & Hm'); [|done|lia|].
    + intros i b y Hi.
      destruct (Hcells i b y) as (lb & Hlb & Hpb).
      { rewrite lookup_app_l; [done|]. by eapply lookup_lt_Some. }
      exists lb. split.
      * rewrite lookup_delete_ne; [done|]. intros <-.
        apply (Hdisj a); [by eapply lookup_cell_elem|]. left.
      * rewrite Hpb. destruct i as [|j]; [done|].
        rewrite lookup_app_l; [done|]. apply lookup_lt_Some in Hi. lia.
    + exists m'. split; [done|]. intros b. rewrite Hm', fmap_app.
      destruct (decide (b ∈ cs.*1)) as [Hb|Hb].
      * rewrite decide_True; [done|]. apply elem_of_app. by left.
      * destruct (decide (b = a)) as [->|Hba].
        -- rewrite lookup_delete_eq, decide_True; [done|].
           apply elem_of_app. right. left.
        -- rewrite lookup_delete_ne, decide_False; [done| |done].
           intros [?|Hin%list_elem_of_singleton]%elem_of_app; done.
Qed.

Lemma allocated_length (m : gmap positive line) (l : list positive) :
  NoDup l → (∀ a, a ∈ l → is_Some (m !! a)) → (length l ≤ size m)%nat.
Proof.
  intros Hnd Hall.
  rewrite <- (size_list_to_set (C := gset positive) l Hnd), <- size_dom.
  apply subseteq_size. intros a Ha. apply elem_of_dom, Hall.
  by apply elem_of_list_to_set in Ha.
Qed.

(** Fuel beyond the size of the heap changes nothing: every round frees a
    cell, so [free_lines] stops for lack of fuel only where the next cell is
    not allocated any more. *)
Lemma free_lines_enough fuel m p :
  (size m ≤ fuel)%nat → free_lines fuel m p = free_lines (size m) m p.
Proof.
  remember (size m) as k eqn:Hk. revert fuel m p Hk.
  induction k as [|k IH]; intros fuel m p Hk Hfuel.
  - symmetry in Hk. apply map_size_empty_inv in Hk as ->.
    destruct p as [a|]; [|by destruct fuel].
    destruct fuel; simpl; [done|]. by rewrite lookup_empty.
  - destruct p as [a|]; [|by destruct fuel].
    destruct fuel as [|fuel]; [lia|]. simpl.
    destruct (m !! a) as [l|] eqn:Ha; simpl; [|done].
    apply IH; [|lia].
    rewrite map_size_delete_Some in * by done. lia.
Qed.

Lemma free_session m h cs :
  session_inv m h cs →
  ∃ m', free_lines (size m) m (lines h) = Some m' ∧
        ∀ b, m' !! b = if decide (b ∈ cs.*1) then None else m !! b.
Proof.
  intros (Hchain & -> & _).
  pose proof (chain_NoDup _ _ Hchain) as Hnd.
  apply free_lines_chain; [|done|].
  - intros i a x Hi. eexists. split; [by eapply dseg_lookup|done].
  - rewrite <- (length_fmap fst). apply allocated_length; [done|].
    intros a Ha. by eapply dseg_allocated.
Qed.

(** ** The store *)

Lemma cells_cons s ss : cells (s :: ss) = s.2.*1 ++ cells ss.
Proof. unfold cells. simpl. by rewrite fmap_app. Qed.

Lemma session_frame m m' h cs :
  session_inv m h cs → (∀ a, a ∈ cs.*1 → m' !! a = m !! a) →
  session_inv m' h cs.
Proof.
  intros (Hchain & Hlines & Hcur) Hsame. repeat split; [|done..].
  by eapply dseg_frame.
Qed.

Lemma store_inv_cons m s ss :
  store_inv m (s :: ss) ↔
  session_inv m s.1 s.2 ∧ store_inv m ss ∧ (∀ a, a ∈ s.2.*1 → a ∉ cells ss).
Proof.
  unfold store_inv. rewrite Forall_cons, cells_cons, NoDup_app. split.
  - intros ((Hs & Hss) & _ & Hdisj & Hnd). done.
  - intros (Hs & (Hss & Hnd) & Hdisj). split_and!; [done|done| |done|done].
    destruct Hs as (Hchain & _). by eapply chain_NoDup.
Qed.

Lemma store_allocated m ss a :
  store_inv m ss → a ∈ cells ss → is_Some (m !! a).
Proof.
  induction ss as [|s ss IH]; [by intros _ Ha%elem_of_nil|].
  rewrite store_inv_cons, cells_cons.
  intros ((Hchain & _) & Hss & _) [Ha|Ha]%elem_of_app; [|by apply IH].
  by eapply dseg_allocated.
Qed.

Lemma store_frame m m' ss :
  store_inv m ss → (∀ a, a ∈ cells ss → m' !! a = m !! a) → store_inv m' ss.
Proof.
  induction ss as [|s ss IH]; [intros _ _; split; constructor|].
  rewrite !store_inv_cons, cells_cons. intros (Hs & Hss & Hdisj) Hsame.
  split; [|split; [|done]].
  - eapply session_frame; [done|]. intros a Ha. apply Hsame, elem_of_app.
    by left.
  - apply IH; [done|]. intros a Ha. apply Hsame, elem_of_app. by right.
Qed.

Lemma cells_insert ss i h cs h' cs_new b :
  ss !! i = Some (h, cs) →
  b ∈ cells (<[i := (h', cs ++ cs_new)]> ss) → b ∈ cells ss ∨ b ∈ cs_new.*1.
Proof.
  revert i. induction ss as [|s ss IH]; intros i; [done|].
  destruct i as [|i]; simpl; rewrite !cells_cons.
  - intros [= ->]. simpl. rewrite fmap_app, !elem_of_app. tauto.
  - intros Hi. rewrite !elem_of_app. intros [Hb|Hb]; [tauto|].
    destruct (IH _ Hi Hb); tauto.
Qed.

Lemma cells_lookup ss i h (cs : list (positive * string)) a :
  ss !! i = Some (h, cs) → a ∈ cs.*1 → a ∈ cells ss.
Proof.
  revert i. induction ss as [|s ss IH]; intros i; [done|].
  rewrite cells_cons, elem_of_app. destruct i as [|i]; simpl.
  - intros [= ->]. by left.
  - intros Hi Ha. right. by eapply IH.
Qed.

(** A request that keeps its own session well formed, allocates only fresh
    cells and writes only to the cells of its session, keeps the store well
    formed. *)
Lemma store_inv_update m m' ss i h cs h' cs_new :
  store_inv m ss → ss !! i = Some (h, cs) →
  session_inv m' h' (cs ++ cs_new) →
  (∀ a, a ∈ cs_new.*1 → m !! a = None) →
  (∀ b, b ∉ cs.*1 → b ∉ cs_new.*1 → m' !! b = m !! b) →
  store_inv m' (<[i := (h', cs ++ cs_new)]> ss).
Proof.
  intros Hst Hi Hs' Hnew Hframe.
  assert (∀ a, a ∈ cells ss → a ∉ cs_new.*1) as Hold.
  { intros a Ha Hn. destruct (store_allocated _ _ _ Hst Ha) as [l Hl].
    rewrite (Hnew _ Hn) in Hl. done. }
  revert i Hst Hi Hold. induction ss as [|s ss IH]; intros i Hst Hi Hold; [done|].
  apply store_inv_cons in Hst as (Hs & Hss & Hdisj).
  destruct i as [|i]; simpl in *; apply store_inv_cons; simpl.
  - injection Hi as ->. simpl in *. split; [done|]. split.
    + apply (store_frame m); [done|]. intros a Ha. apply Hframe.
      * intros Hc. by apply (Hdisj a).
      * apply Hold. rewrite cells_cons, elem_of_app. by right.
    + intros a. rewrite fmap_app, elem_of_app. intros [Ha|Ha]; [by apply Hdisj|].
      intros Hin. apply (Hold a); [|done]. rewrite cells_cons, elem_of_app.
      by right.
  - split; [|split].
    + apply (session_frame m); [done|]. intros a Ha. apply Hframe.
      * intros Hc. apply (Hdisj a Ha). by eapply cells_lookup.
      * apply Hold. rewrite cells_cons, elem_of_app. by left.
    + apply IH; [done..|]. intros a Ha. apply Hold.
      rewrite cells_cons, elem_of_app. by right.
    + intros a Ha Hin. destruct (cells_insert _ _ _ _ _ _ _ Hi Hin) as [Hc|Hc].
      * by apply (Hdisj a).
      * apply (Hold a); [|done]. rewrite cells_cons, elem_of_app. by left.
Qed.

(** ** [cleanup] *)

Lemma cells_filter (P : hist * list (positive * string) → Prop)
    `{!∀ s, Decision (P s)} ss a :
  a ∈ cells (filter P ss) → a ∈ cells ss.
Proof.
  induction ss as [|s ss IH]; [done|].
  rewrite filter_cons. destruct (decide (P s)); rewrite !cells_cons, !elem_of_app;
    tauto.
Qed.

Lemma cleanup_sweep kill m ss :
  store_inv m ss →
  ∃ m',
    cleanup kill m ss.*1 =
      Some (m', (filter (λ s, no_such_process kill s.1 = false) ss).*1) ∧
    store_inv m' (filter (λ s, no_such_process kill s.1 = false) ss) ∧
    ∀ b, m' !! b =
         if decide (b ∈ cells (filter (λ s, no_such_process kill s.1 = true) ss))
         then None else m !! b.
Proof.
  revert m. induction ss as [|s ss IH]; intros m Hst.
  - exists m. split; [done|]. split; [done|]. intros b.
    rewrite decide_False; [done|]. apply not_elem_of_nil.
  - apply store_inv_cons in Hst as (Hs & Hss & Hdisj).
    rewrite !filter_cons. simpl.
    destruct (no_such_process kill s.1) eqn:Hgone.
    + destruct (free_session _ _ _ Hs) as (m1 & Hfree & Hm1).
      rewrite Hfree. simpl.
      destruct (IH m1) as (m' & Hclean & Hst' & Hm').
      { apply (store_frame m); [done|]. intros a Ha. rewrite Hm1.
        rewrite decide_False; [done|]. intros Hc. by apply (Hdisj a). }
      exists m'. split; [done|]. split; [done|]. intros b.
      rewrite Hm', Hm1, cells_cons.
      destruct (decide (b ∈ s.2.*1)), (decide (b ∈ cells _));
        [rewrite decide_True by (rewrite elem_of_app; tauto)..
        |rewrite decide_False by (rewrite elem_of_app; tauto)]; done.
    + destruct (IH m Hss) as (m' & Hclean & Hst' & Hm').
      simpl. unfold fmap in Hclean. rewrite Hclean. simpl.
      exists m'. split; [done|]. split; [|done].
      apply store_inv_cons. split; [|split; [done|]].
      * apply (session_frame m); [done|]. intros a Ha. rewrite Hm'.
        rewrite decide_False; [done|]. intros Hc%cells_filter.
        by apply (Hdisj a).
      * intros a Ha Hc%cells_filter. by apply (Hdisj a).
Qed.

(** ** [findhist] *)

Lemma lookup_hist_Some hs p d i :
  lookup_hist hs p d = Some i →
  ∃ h, hs !! i = Some h ∧ pid h = p ∧ dev h = d.
Proof.
  revert i. induction hs as [|h hs IH]; intros i; simpl; [done|].
  destruct ((pid h =? p) && (dev h =? d)) eqn:Hk.
  - intros [= <-]. exists h. apply andb_true_iff in Hk as [Hp Hd].
    split; [done|]. split; lia.
  - destruct (lookup_hist hs p d) as [j|]; [|done].
    intros [= <-]. by apply IH.
Qed.

Lemma findhist_inv m ss p d :
  store_inv m ss →
  ∃ ss1 h cs,
    findhist ss.*1 p d = (ss1.*1, (findhist ss.*1 p d).2) ∧
    store_inv m ss1 ∧
    ss1 !! (findhist ss.*1 p d).2 = Some (h, cs) ∧
    (ss1 = ss ∨
     ss1 = ({| pid := p; dev := d; lines := None; current := None |}, []) :: ss).
Proof.
  intros Hst. unfold findhist.
  destruct (lookup_hist ss.*1 p d) as [i|] eqn:Hfind.
  - apply lookup_hist_Some in Hfind as (h & Hi & _).
    rewrite list_lookup_fmap in Hi.
    destruct (ss !! i) as [[h' cs]|] eqn:Hss; [|done].
    exists ss, h', cs. split_and!; [done..|by left].
  - exists (({| pid := p; dev := d; lines := None; current := None |}, []) :: ss),
      {| pid := p; dev := d; lines := None; current := None |}, [].
    split; [done|]. split; [|split; [done|by right]].
    apply store_inv_cons. split; [done|]. split; [done|].
    intros a Ha. by apply elem_of_nil in Ha.
Qed.

(** ** The request loop *)

Lemma main_iteration_inv tl kill starttime now th m ss :
  store_inv m ss →
  ∃ m' ss' out,
    main_iteration tl kill starttime now th m ss.*1 = Some (m', ss'.*1, out) ∧
    store_inv m' ss'.
Proof.
  intros Hst. unfold main_iteration.
  destruct (now <=? starttime + 2); [by exists m, ss, []|].
  destruct (find _ tl) as [t|]; [|by eexists m, ss, _].
  destruct (findhist_inv m ss (th_pid th) (th_tty th) Hst)
    as (ss1 & h & cs & Hfind & Hst1 & Hi & _).
  rewrite Hfind. rewrite list_lookup_fmap, Hi. simpl.
  destruct Hst1 as [Hall Hnd].
  pose proof (Forall_lookup_1 _ _ _ _ Hall Hi) as Hs. simpl in Hs.
  destruct (handlehist_inv m h cs th t Hs)
    as (m1 & h' & out & cs_new & Hh & Hs' & Hnew & Hframe).
  rewrite Hh. simpl.
  pose proof (store_inv_update m m1 ss1 _ h cs h' cs_new
                (conj Hall Hnd) Hi Hs' Hnew Hframe) as Hst2.
  destruct (cleanup_sweep kill m1 _ Hst2) as (m2 & Hclean & Hst3 & _).
  rewrite list_fmap_insert in Hclean. simpl in Hclean.
  rewrite Hclean. simpl. by eexists _, _, _.
Qed.

Lemma reachable_inv m hs :
  reachable (m, hs) → ∃ ss, hs = ss.*1 ∧ store_inv m ss.
Proof.
  remember (m, hs) as st eqn:Hst. intros Hreach. revert m hs Hst.
  induction Hreach as [|tl kill starttime now th m hs m' hs' out _ IH Hstep];
    intros m0 hs0 [= <- <-].
  - exists []. split; [done|]. split; constructor.
  - destruct (IH m hs eq_refl) as (ss & -> & Hinv).
    destruct (main_iteration_inv tl kill starttime now th m ss Hinv)
      as (m1 & ss1 & out1 & Hstep1 & Hinv1).
    rewrite Hstep1 in Hstep. injection Hstep as <- <- _. by exists ss1.
Qed.

(** ** Sequences of requests *)

Lemma handlehist_seq_cons m th ths h t :
  handlehist_seq m (th :: ths) h t =
    '(m1, h1, out) ← handlehist m th h t;
    '(m2, h2, outs) ← handlehist_seq m1 ths h1 t;
    Some (m2, h2, out :: outs).
Proof. done. Qed.

Lemma handlehist_seq_app m ths1 ths2 h t :
  handlehist_seq m (ths1 ++ ths2) h t =
    '(m1, h1, outs1) ← handlehist_seq m ths1 h t;
    '(m2, h2, outs2) ← handlehist_seq m1 ths2 h1 t;
    Some (m2, h2, outs1 ++ outs2).
Proof.
  revert m h. induction ths1 as [|th ths1 IH]; intros m h; simpl.
  - by destruct (handlehist_seq m ths2 h t) as [[[m2 h2] outs2]|].
  - destruct (handlehist m th h t) as [[[m1 h1] out]|]; simpl; [|done].
    rewrite IH.
    destruct (handlehist_seq m1 ths1 h1 t) as [[[m2 h2] outs1]|]; simpl; [|done].
    by destruct (handlehist_seq m2 ths2 h2 t) as [[[m3 h3] outs2]|].
Qed.

Lemma keep_seq m h cs p d t (Ls : list string) :
  session_inv m h cs → current h = None → Forall (λ L, L ≠ EmptyString) Ls →
  ∃ m' h' cs_new,
    handlehist_seq m (Record_request p d <$> Ls) h t =
      Some (m', h', replicate (length Ls) noDelivery) ∧
    session_inv m' h' (cs ++ cs_new) ∧
    cs_new.*2 = stored_text <$> Ls ∧
    current h' = None.
Proof.
  intros Hinv Hcur HLs. revert m h cs Hinv Hcur.
  induction HLs as [|L Ls HL _ IH]; intros m h cs Hinv Hcur.
  - exists m, h, []. rewrite app_nil_r. done.
  - destruct (keep_appends m h cs p d (String.length L) L t Hinv)
      as (m1 & He & Hinv1 & _); [by destruct L|].
    destruct (IH _ _ _ Hinv1 eq_refl) as (m' & h' & cs_new & Hseq & Hinv' & Ht & Hc).
    exists m', h', ((malloc m, stored_text L) :: cs_new).
    rewrite fmap_cons, handlehist_seq_cons.
    rewrite (He : handlehist m (Record_request p d L) h t = _). simpl.
    rewrite Hseq. simpl.
    split; [done|]. split; [by rewrite cons_middle, app_assoc|].
    split; [by f_equal|done].
Qed.

(** One step older from the position [S j] of the chain ([length cs] is
    the bottom) leads to the position [j]. *)
Lemma prev_step m h (cs : list (positive * string)) j p d n info t :
  session_inv m h cs → current h = fst <$> cs !! S j → (S j ≤ length cs)%nat →
  ∃ b y, cs !! j = Some (b, y) ∧
    handlehist m (Ttyhelper TH_HIST_PREV p d n info) h t =
      Some (m, set_current h (Some b), deliverText y).
Proof.
  intros Hinv Hcur Hj.
  destruct (lookup_lt_is_Some_2 cs j) as [[b y] Hb]; [lia|].
  exists b, y. split; [done|].
  destruct (cs !! S j) as [[a x]|] eqn:Ha; simpl in Hcur.
  - by eapply prev_older.
  - apply lookup_ge_None in Ha.
    destruct (list_nil_or_snoc cs) as [->|(cs0 & [b' y'] & ->)]; [done|].
    rewrite length_app in *. simpl in *.
    assert (j = length cs0) as -> by lia.
    rewrite list_lookup_middle in Hb by done. injection Hb as -> ->.
    by eapply prev_bottom.
Qed.

Lemma prev_seq m h (cs : list (positive * string)) j k p d t :
  session_inv m h cs → current h = fst <$> cs !! j →
  (k ≤ j)%nat → (j ≤ length cs)%nat →
  handlehist_seq m (replicate k (StepOlder_request p d)) h t =
    Some (m,
          {| pid := pid h; dev := dev h; lines := lines h;
             current := fst <$> cs !! (j - k)%nat |},
          deliverText <$> reverse (take k (drop (j - k) cs.*2))).
Proof.
  revert h j. induction k as [|k IH]; intros h j Hinv Hcur Hk Hj.
  - simpl. rewrite Nat.sub_0_r, <- Hcur. by destruct h.
  - destruct j as [|j]; [lia|].
    destruct (prev_step m h cs j p d O EmptyString t Hinv Hcur Hj)
      as (b & y & Hb & He).
    rewrite replicate_S, handlehist_seq_cons.
    rewrite (He : handlehist m (StepOlder_request p d) h t = _). simpl.
    rewrite (IH (set_current h (Some b)) j); [|..|lia|lia].
    + simpl. do 3 f_equal.
      assert ((drop (j - k) cs.*2) !! k = Some y) as Hy.
      { rewrite lookup_drop, list_lookup_fmap.
        replace (j - k + k)%nat with j by lia. by rewrite Hb. }
      rewrite (take_S_r _ _ _ Hy), reverse_app. done.
    + apply set_current_inv; [done|]. intros ? [= <-].
      by eapply lookup_cell_elem.
    + simpl. by rewrite Hb.
Qed.

(** ** What a sweep removes and what it keeps *)

Lemma filter_fst (P : hist → Prop) `{!∀ h, Decision (P h)}
    (ss : list (hist * list (positive * string))) :
  (filter (λ s, P s.1) ss).*1 = filter P ss.*1.
Proof.
  induction ss as [|s ss IH]; [done|].
  rewrite fmap_cons, !filter_cons.
  destruct (decide (P s.1)); [rewrite fmap_cons|]; by rewrite IH.
Qed.

Lemma filter_all {A} (P : A → Prop) `{!∀ x, Decision (P x)} (l : list A) :
  Forall P l → filter P l = l.
Proof.
  induction 1 as [|x l Hx _ IH]; [done|].
  by rewrite filter_cons, decide_True, IH.
Qed.

Lemma filter_none {A} (P Q : A → Prop) `{!∀ x, Decision (P x)} (l : list A) :
  Forall Q l → (∀ x, Q x → ¬ P x) → filter P l = [].
Proof.
  intros Hall HQ. induction Hall as [|x l Hx _ IH]; [done|].
  rewrite filter_cons, decide_False, IH; [done|]. by apply HQ.
Qed.

Lemma cells_elem ss s a : s ∈ ss → a ∈ s.2.*1 → a ∈ cells ss.
Proof.
  intros [i Hi]%list_elem_of_lookup Ha. destruct s as [h cs].
  by eapply cells_lookup.
Qed.

Lemma alive_not_freed kill m ss s a :
  store_inv m ss → s ∈ ss → no_such_process kill s.1 = false → a ∈ s.2.*1 →
  a ∉ cells (filter (λ s, no_such_process kill s.1 = true) ss).
Proof.
  induction ss as [|s0 ss IH]; [by intros _ ?%elem_of_nil|].
  rewrite store_inv_cons. intros (Hs0 & Hss & Hdisj) Hin Halive Ha.
  rewrite filter_cons. apply elem_of_cons in Hin as [->|Hin].
  - rewrite decide_False by congruence. intros Hc%cells_filter.
    by apply (Hdisj a).
  - destruct (decide _).
    + rewrite cells_cons, elem_of_app. intros [Hc|Hc].
      * apply (Hdisj a Hc). by eapply cells_elem.
      * by apply IH in Hc.
    + by apply IH.
Qed.

Lemma sweep_spec kill m ss :
  store_inv m ss →
  ∃ m',
    cleanup kill m ss.*1 =
      Some (m', filter (λ h, no_such_process kill h = false) ss.*1) ∧
    store_inv m' (filter (λ s, no_such_process kill s.1 = false) ss) ∧
    (∀ s, s ∈ ss → no_such_process kill s.1 = true →
          ∀ a, a ∈ s.2.*1 → m' !! a = None) ∧
    (∀ s, s ∈ ss → no_such_process kill s.1 = false →
          session_inv m' s.1 s.2 ∧ ∀ a, a ∈ s.2.*1 → m' !! a = m !! a) ∧
    (∀ b, b ∉ cells ss → m' !! b = m !! b) ∧
    (Forall (λ h, no_such_process kill h = false) ss.*1 → m' = m).
Proof.
  intros Hst. destruct (cleanup_sweep kill m ss Hst) as (m' & Hc & Hst' & Hm').
  exists m'. rewrite <- filter_fst. split_and!; [done|done|..].
  - intros s Hs Hgone a Ha. rewrite Hm', decide_True; [done|].
    eapply cells_elem; [|done]. by apply list_elem_of_filter.
  - intros s Hs Halive.
    assert (∀ a, a ∈ s.2.*1 → m' !! a = m !! a) as Hsame.
    { intros a Ha. rewrite Hm', decide_False; [done|].
      by eapply alive_not_freed. }
    split; [|done]. destruct Hst' as [Hall _].
    rewrite Forall_forall in Hall. apply (Hall s).
    by apply list_elem_of_filter.
  - intros b Hb. rewrite Hm', decide_False; [done|].
    intros Hin%cells_filter. done.
  - intros Hall. apply map_eq. intros b. rewrite Hm'.
    rewrite (filter_none _ (λ s, no_such_process kill s.1 = false));
      [done| |congruence].
    by apply Forall_fmap in Hall.
Qed.

(** A step older or newer that returns has written to no cell and has left
    the chain pointer, the process and the device of the session alone. *)
Lemma step_frame m h req p d n info t m' h' out :
  req = TH_HIST_PREV ∨ req = TH_HIST_NEXT →
  handlehist m (Ttyhelper req p d n info) h t = Some (m', h', out) →
  m' = m ∧ lines h' = lines h ∧ pid h' = pid h ∧ dev h' = dev h.
Proof.
  unfold handlehist, totty. intros [-> | ->]; simpl;
    repeat (match goal with
            | |- context [mbind _ ?o] => destruct o eqn:?
            | |- context [match ?x with _ => _ end] => destruct x eqn:?
            end; simpl in * );
    intros [= <- <- <-]; done.
Qed.

(** ** The claims *)

(** C1 (amended).  On a fresh session, after [Record (L1)], ...,
    [Record (Ln)] with every [Li] non-empty, [n] steps older return, deliver
    the stored texts of [Ln], ..., [L1] in that order, and leave the cursor
    on the oldest entry.  The stored text of [Li] is [Li] up to its first
    NUL byte, so [Li] itself when it has none. *)
Theorem recall_newest_first m p d t (Ls : list string) :
  Forall (λ L, L ≠ EmptyString) Ls →
  ∃ m' h' cs,
    handlehist_seq m
      ((Record_request p d <$> Ls) ++
       replicate (length Ls) (StepOlder_request p d))
      {| pid := p; dev := d; lines := None; current := None |} t =
      Some (m', h',
            replicate (length Ls) noDelivery ++
            (deliverText <$> reverse (stored_text <$> Ls))) ∧
    session_inv m' h' cs ∧
    cs.*2 = stored_text <$> Ls ∧
    current h' = fst <$> head cs ∧
    (∀ L, L ∈ Ls → nul_free L = true → stored_text L = L).
Proof.
  intros HLs.
  destruct (keep_seq m {| pid := p; dev := d; lines := None; current := None |}
              [] p d t Ls) as (m' & h' & cs & Hseq & Hinv & Htexts & Hcur);
    [done..|].
  simpl in Hinv.
  assert (length cs = length Ls) as Hlen.
  { by rewrite <- (length_fmap snd cs), Htexts, length_fmap. }
  pose proof (prev_seq m' h' cs (length cs) (length Ls) p d t Hinv) as Hprev.
  rewrite Hlen in Hprev. rewrite Nat.sub_diag, drop_0 in Hprev.
  rewrite take_ge in Hprev by (by rewrite length_fmap, Hlen).
  rewrite Hcur, lookup_ge_None_2 in Hprev by lia.
  specialize (Hprev eq_refl (Nat.le_refl _) (Nat.le_refl _)).
  eexists m', _, cs. rewrite handlehist_seq_app, Hseq. simpl.
  rewrite Hprev. simpl.
  split_and!; [by rewrite Htexts| |done|by rewrite head_lookup|].
  - destruct Hinv as (Hchain & Hlines & _). split_and!; [done..|].
    unfold cursor_ok. simpl. destruct (cs !! O) as [[a x]|] eqn:Ha; [|done].
    by eapply lookup_cell_elem.
  - intros L _ HL. by apply strncpy_nul_free.
Qed.

(** C2 (amended).  A request of an unrecognized kind leaves the store as it
    was when the daemon discards it, unreported, in its first two seconds,
    and when its terminal is unknown, which is what is reported then.
    Otherwise the request is reported as an unknown request and the dispatch
    itself changes no session, but the store is not left as it was in
    general: [findhist] has put an empty session at the head when the key
    had none, and the sweep that follows every request removes the sessions
    whose process is gone.  The sessions that stay keep their chain and
    their cursor; the store is left as it was when the key has a session and
    no process is gone. *)
Theorem unknown_request_store tl kill starttime now code p d n info m ss :
  store_inv m ss →
  (now ≤ starttime + 2 →
   main_iteration tl kill starttime now
     (Ttyhelper (TH_OTHER code) p d n info) m ss.*1 = Some (m, ss.*1, [])) ∧
  (starttime + 2 < now →
   find (λ t, bool_decide (tty_dev t = d)) tl = None →
   main_iteration tl kill starttime now
     (Ttyhelper (TH_OTHER code) p d n info) m ss.*1 =
     Some (m, ss.*1, [Stderr_unknown_tty d])) ∧
  (∀ t, starttime + 2 < now →
   find (λ t, bool_decide (tty_dev t = d)) tl = Some t →
   ∃ m',
     main_iteration tl kill starttime now
       (Ttyhelper (TH_OTHER code) p d n info) m ss.*1 =
       Some (m',
             filter (λ h, no_such_process kill h = false)
               (findhist ss.*1 p d).1,
             invalidRequest code (name t)) ∧
     (findhist ss.*1 p d).1 =
       match lookup_hist ss.*1 p d with
       | Some _ => ss.*1
       | None =>
           {| pid := p; dev := d; lines := None; current := None |} :: ss.*1
       end ∧
     (∀ h cs, (h, cs) ∈ ss → no_such_process kill h = false →
              session_inv m' h cs ∧ ∀ a, a ∈ cs.*1 → m' !! a = m !! a) ∧
     (is_Some (lookup_hist ss.*1 p d) →
      Forall (λ h, no_such_process kill h = false) ss.*1 →
      m' = m ∧
      filter (λ h, no_such_process kill h = false) (findhist ss.*1 p d).1 =
        ss.*1)).
Proof.
  intros Hst. split_and!.
  - intros Hnow. unfold main_iteration.
    by rewrite (proj2 (Z.leb_le _ _)) by done.
  - intros Hnow Htty. unfold main_iteration. simpl.
    rewrite (proj2 (Z.leb_gt _ _)) by done. by rewrite Htty.
  - intros t Hnow Htty. unfold main_iteration. simpl.
    rewrite (proj2 (Z.leb_gt _ _)) by done. rewrite Htty.
    assert ((findhist ss.*1 p d).1 =
            match lookup_hist ss.*1 p d with
            | Some _ => ss.*1
            | None =>
                {| pid := p; dev := d; lines := None; current := None |}
                :: ss.*1
            end) as Hfst.
    { unfold findhist. by destruct (lookup_hist ss.*1 p d). }
    destruct (findhist_inv m ss p d Hst)
      as (ss1 & h & cs & Hfind & Hst1 & Hi & Hss1).
    rewrite Hfind in Hfst |- *. simpl in Hfst |- *.
    rewrite list_lookup_fmap, Hi. simpl.
    rewrite list_insert_id by (by rewrite list_lookup_fmap, Hi).
    destruct (sweep_spec kill m ss1 Hst1)
      as (m' & Hclean & _ & _ & Halive & _ & Hsame).
    rewrite Hclean. simpl. exists m'. split_and!; [done|done| |].
    + intros h0 cs0 Hin Hh0. apply (Halive (h0, cs0)); [|done].
      destruct Hss1 as [-> | ->]; [done|by right].
    + intros [i Hfound] Hall. rewrite Hfound in Hfst. rewrite Hfst in *.
      split; [by apply Hsame|by apply filter_all].
Qed.

(** C3.  Whatever the session, [handlehist] answers a request of an
    unrecognized kind with [invalidRequest] and changes neither a cell of
    the heap nor a field of the session: the chain and the cursor are as
    before. *)
Theorem unknown_request_session m h t code p d n info :
  handlehist m (Ttyhelper (TH_OTHER code) p d n info) h t =
    Some (m, h, invalidRequest code (name t)).
Proof. done. Qed.

(** C4.  StepOlder: at the bottom of a non-empty chain the cursor moves to
    the newest entry and its text is delivered; at the bottom of an empty
    chain the terminal is alerted and the cursor stays; on an entry with an
    older neighbour the cursor moves to it and its text is delivered; on the
    oldest entry nothing changes and nothing is delivered or alerted. *)
Theorem StepOlder_cases m h cs p d n info t :
  session_inv m h cs →
  (∀ cs' a x, current h = None → cs = cs' ++ [(a, x)] →
     handlehist m (Ttyhelper TH_HIST_PREV p d n info) h t =
       Some (m, set_current h (Some a), deliverText x)) ∧
  (current h = None → cs = [] →
     handlehist m (Ttyhelper TH_HIST_PREV p d n info) h t =
       Some (m, h, signalAlert)) ∧
  (∀ i a x b y, current h = Some a →
     cs !! S i = Some (a, x) → cs !! i = Some (b, y) →
     handlehist m (Ttyhelper TH_HIST_PREV p d n info) h t =
       Some (m, set_current h (Some b), deliverText y)) ∧
  (∀ a x, current h = Some a → cs !! O = Some (a, x) →
     handlehist m (Ttyhelper TH_HIST_PREV p d n info) h t =
       Some (m, h, noDelivery)).
Proof.
  intros Hinv. split_and!.
  - intros cs' a x Hcur ->. by eapply prev_bottom.
  - intros Hcur ->. apply prev_empty; [done|]. by destruct Hinv as (_ & -> & _).
  - intros i a x b y Hcur Ha Hb. by eapply prev_older.
  - intros a x Hcur Ha. by eapply prev_oldest.
Qed.

(** C5.  StepNewer: at the bottom the terminal is alerted and the cursor
    stays; on an entry with a newer neighbour the cursor moves to it and its
    text is delivered; on the newest entry the cursor goes to the bottom and
    the empty line is delivered. *)
Theorem StepNewer_cases m h cs p d n info t :
  session_inv m h cs →
  (current h = None →
     handlehist m (Ttyhelper TH_HIST_NEXT p d n info) h t =
       Some (m, h, signalAlert)) ∧
  (∀ i a x b y, current h = Some a →
     cs !! i = Some (a, x) → cs !! S i = Some (b, y) →
     handlehist m (Ttyhelper TH_HIST_NEXT p d n info) h t =
       Some (m, set_current h (Some b), deliverText y)) ∧
  (∀ i a x, current h = Some a →
     cs !! i = Some (a, x) → S i = length cs →
     handlehist m (Ttyhelper TH_HIST_NEXT p d n info) h t =
       Some (m, set_current h None, deliverEmpty)).
Proof.
  intros Hinv. split_and!.
  - apply next_bottom.
  - intros i a x b y Hcur Ha Hb. by eapply next_newer.
  - intros i a x Hcur Ha Hlast. by eapply next_newest.
Qed.

(** C6 (amended).  From the bottom of a non-empty chain, one step older and
    then one step newer bring the session back to where it was, cursor at
    the bottom, and the second step delivers the empty line.  On an empty
    chain both steps alert the terminal and the cursor stays at the
    bottom. *)
Theorem older_then_newer m h cs p d n info n' info' t :
  session_inv m h cs → current h = None →
  (cs ≠ [] →
   ∃ h1 x,
     handlehist m (Ttyhelper TH_HIST_PREV p d n info) h t =
       Some (m, h1, deliverText x) ∧
     handlehist m (Ttyhelper TH_HIST_NEXT p d n' info') h1 t =
       Some (m, h, deliverEmpty)) ∧
  (cs = [] →
   handlehist m (Ttyhelper TH_HIST_PREV p d n info) h t =
     Some (m, h, signalAlert) ∧
   handlehist m (Ttyhelper TH_HIST_NEXT p d n' info') h t =
     Some (m, h, signalAlert)).
Proof.
  intros Hinv Hcur. split.
  - intros Hne.
    destruct (list_nil_or_snoc cs) as [->|(cs0 & [a x] & ->)]; [done|].
    exists (set_current h (Some a)), x. split; [by eapply prev_bottom|].
    assert (h = set_current (set_current h (Some a)) None) as Hh.
    { destruct h. simpl in Hcur. by subst. }
    rewrite Hh at 2.
    eapply (next_newest _ _ _ (length cs0)).
    + apply set_current_inv; [done|]. intros ? [= <-].
      rewrite fmap_app. apply elem_of_app. right. left.
    + done.
    + by rewrite list_lookup_middle.
    + rewrite length_app. simpl. lia.
  - intros ->. split; [|by apply next_bottom].
    apply prev_empty; [done|]. by destruct Hinv as (_ & -> & _).
Qed.

(** C7 (amended).  Whatever the cursor, [Record (text)] with a non-empty
    text allocates one new cell, links it at the newest end of the chain
    and sets the cursor to the bottom; the cell holds the text up to its
    first NUL byte, so the text itself when it has none.  The entries
    stored before are the same cells with the same texts, and no cell
    outside the session is written.  [Record] of the empty text only sets
    the cursor to the bottom.  Nothing is delivered in either case. *)
Theorem Record_appends m h cs p d t :
  session_inv m h cs →
  (∀ x, x ≠ EmptyString →
     ∃ m' a h',
       handlehist m (Record_request p d x) h t = Some (m', h', noDelivery) ∧
       h' = {| pid := pid h; dev := dev h; lines := Some a; current := None |} ∧
       m !! a = None ∧
       session_inv m' h' (cs ++ [(a, stored_text x)]) ∧
       (nul_free x = true → stored_text x = x) ∧
       (∀ b, b ∉ cs.*1 → b ≠ a → m' !! b = m !! b)) ∧
  handlehist m (Record_request p d EmptyString) h t =
    Some (m, set_current h None, noDelivery).
Proof.
  intros Hinv. split; [|done]. intros x Hx.
  destruct (keep_appends m h cs p d (String.length x) x t Hinv)
    as (m' & He & Hinv' & Hframe); [by destruct x|].
  exists m', (malloc m), (set_current (set_lines h (Some (malloc m))) None).
  split_and!; [done..|apply strncpy_nul_free|done].
Qed.

(** C8.  One sweep returns and keeps exactly the sessions whose probe does
    not fail with [ESRCH], in their order.  Every cell of a removed session
    is freed.  A session that is kept is the same record, so the same
    cursor, and its chain is made of the same cells with the same contents;
    cells of no session are not touched. *)
Theorem sweep_reaps_the_dead kill m ss :
  store_inv m ss →
  ∃ m',
    cleanup kill m ss.*1 =
      Some (m', filter (λ h, no_such_process kill h = false) ss.*1) ∧
    (∀ h cs, (h, cs) ∈ ss → no_such_process kill h = true →
             ∀ a, a ∈ cs.*1 → m' !! a = None) ∧
    (∀ h cs, (h, cs) ∈ ss → no_such_process kill h = false →
             session_inv m' h cs ∧ ∀ a, a ∈ cs.*1 → m' !! a = m !! a) ∧
    (∀ b, b ∉ cells ss → m' !! b = m !! b).
Proof.
  intros Hst.
  destruct (sweep_spec kill m ss Hst)
    as (m' & Hclean & _ & Hgone & Halive & Hother & _).
  exists m'. split_and!; [done| | |done].
  - intros h cs Hin. apply (Hgone (h, cs) Hin).
  - intros h cs Hin. apply (Halive (h, cs) Hin).
Qed.

(** C9.  In every state the daemon reaches, every session has a well-formed
    chain and its cursor, when set, points to an allocated cell of that
    chain.  [handlehist] keeps a session well formed whatever the request
    (record, step older, step newer or an unknown kind), its chain growing
    at the newer end at most; [cleanup] keeps the store well formed, the
    sessions it leaves being sessions of before with their chains; and a
    whole round of the request loop keeps the store well formed.  All of
    them return. *)
Theorem cursor_stays_in_chain :
  (∀ m hs h, reachable (m, hs) → h ∈ hs →
     ∃ cs, session_inv m h cs ∧
           ∀ a, current h = Some a → a ∈ cs.*1 ∧ is_Some (m !! a)) ∧
  (∀ m h cs th t, session_inv m h cs →
     ∃ m' h' out cs_new,
       handlehist m th h t = Some (m', h', out) ∧
       session_inv m' h' (cs ++ cs_new)) ∧
  (∀ kill m ss, store_inv m ss →
     ∃ m' ss',
       cleanup kill m ss.*1 = Some (m', ss'.*1) ∧ store_inv m' ss' ∧
       ∀ s, s ∈ ss' → s ∈ ss) ∧
  (∀ tl kill starttime now th m ss, store_inv m ss →
     ∃ m' ss' out,
       main_iteration tl kill starttime now th m ss.*1 =
         Some (m', ss'.*1, out) ∧
       store_inv m' ss').
Proof.
  split_and!.
  - intros m hs h Hreach Hh.
    destruct (reachable_inv m hs Hreach) as (ss & -> & Hall & _).
    apply list_elem_of_fmap in Hh as ([h' cs] & -> & Hin).
    rewrite Forall_forall in Hall. pose proof (Hall _ Hin) as Hinv.
    exists cs. split; [done|]. intros a Ha. simpl in *.
    destruct Hinv as (Hchain & _ & Hcur). unfold cursor_ok in Hcur.
    rewrite Ha in Hcur. split; [done|]. by eapply dseg_allocated.
  - intros m h cs th t Hinv.
    destruct (handlehist_inv m h cs th t Hinv)
      as (m' & h' & out & cs_new & He & Hinv' & _).
    by exists m', h', out, cs_new.
  - intros kill m ss Hst.
    destruct (cleanup_sweep kill m ss Hst) as (m' & Hclean & Hst' & _).
    eexists m', _. split_and!; [done..|].
    by intros s [_ Hs]%list_elem_of_filter.
  - intros tl kill starttime now th m ss Hst.
    by apply main_iteration_inv.
Qed.

(** C10.  On a well-formed session a step older and a step newer return
    with the heap as it was and with the session changed in its cursor at
    most; and whenever such a step returns, on any session, no cell was
    written and the chain pointer, process and device of the session are as
    before. *)
Theorem steps_leave_the_chain m h cs p d n info t :
  session_inv m h cs →
  (∃ c out,
     handlehist m (Ttyhelper TH_HIST_PREV p d n info) h t =
       Some (m, set_current h c, out) ∧
     session_inv m (set_current h c) cs) ∧
  (∃ c out,
     handlehist m (Ttyhelper TH_HIST_NEXT p d n info) h t =
       Some (m, set_current h c, out) ∧
     session_inv m (set_current h c) cs) ∧
  (∀ req m' h' out, req = TH_HIST_PREV ∨ req = TH_HIST_NEXT →
     handlehist m (Ttyhelper req p d n info) h t = Some (m', h', out) →
     m' = m ∧ lines h' = lines h ∧ pid h' = pid h ∧ dev h' = dev h).
Proof.
  intros Hinv. split_and!.
  - destruct (step_moves_cursor m h cs TH_HIST_PREV p d n info t Hinv)
      as (c & out & He & Hc); [by left|].
    exists c, out. split; [done|]. by apply set_current_inv.
  - destruct (step_moves_cursor m h cs TH_HIST_NEXT p d n info t Hinv)
      as (c & out & He & Hc); [by right|].
    exists c, out. split; [done|]. by apply set_current_inv.
  - intros req m' h' out Hreq. by apply step_frame.
Qed.

(** ** More about C strings *)

Lemma eqb_NUL_false c : Ascii.eqb c NUL = false ↔ nat_of_ascii c ≠ O.
Proof.
  rewrite Ascii.eqb_neq. split.
  - intros Hc H0. apply Hc. rewrite <- (ascii_nat_embedding c), H0. done.
  - intros Hc ->. by apply Hc.
Qed.

Lemma ascii_diff_0 c1 c2 :
  Z.of_nat (nat_of_ascii c1) - Z.of_nat (nat_of_ascii c2) = 0 → c1 = c2.
Proof.
  intros H. assert (nat_of_ascii c1 = nat_of_ascii c2) as Heq by lia.
  by rewrite <- (ascii_nat_embedding c1), Heq, ascii_nat_embedding.
Qed.

(** Comparing with a pattern, over the length of the pattern, tells
    whether the string starts with the pattern. *)
Lemma strncmp_prefix pat nm :
  nul_free pat = true →
  strncmp nm pat (String.length pat) = 0 ↔ ∃ r, nm = pat +:+ r.
Proof.
  revert nm. induction pat as [|c pat IH]; intros nm Hpat; simpl.
  - split; [by exists nm|done].
  - simpl in Hpat. apply andb_true_iff in Hpat as [Hc Hpat].
    apply negb_true_iff in Hc. destruct nm as [|c1 nm].
    + apply eqb_NUL_false in Hc. split; [lia|]. by intros [r Hr].
    + destruct (Ascii.eqb c1 c) eqn:Heq.
      * apply Ascii.eqb_eq in Heq as ->. rewrite Hc, (IH nm Hpat). split.
        -- intros [r ->]. by exists r.
        -- intros [r [= ->]]. by exists r.
      * apply Ascii.eqb_neq in Heq. split.
        -- by intros ->%ascii_diff_0.
        -- by intros [r [= -> _]].
Qed.

(** ** [findttys] *)

Lemma findttys_loop_Some des tl0 tl :
  findttys_loop des tl0 = Some tl ↔
  Forall (λ de, tty_name (d_name de) = true → is_Some (st_rdev de)) des ∧
  tl = reverse (omap tty_entry des) ++ tl0.
Proof.
  revert tl0. induction des as [|de des IH]; intros tl0; simpl.
  - split; [intros [= ->]; by split|by intros [_ ->]].
  - rewrite Forall_cons. unfold tty_entry at 1.
    destruct (tty_name (d_name de)) eqn:Hname.
    + destruct (st_rdev de) as [rdev|] eqn:Hstat; simpl.
      * rewrite IH, reverse_cons, <- app_assoc. simpl. split.
        -- intros [Hall ->]. eauto.
        -- intros [[_ Hall] ->]. eauto.
      * split; [done|]. intros [[Hde _] _]. by destruct (Hde eq_refl).
    + rewrite IH. split.
      * intros [Hall ->]. split; [split|]; done.
      * intros [[_ Hall] ->]. done.
Qed.

Lemma findttys_loop_None des tl0 :
  findttys_loop des tl0 = None ↔
  ∃ de, de ∈ des ∧ tty_name (d_name de) = true ∧ st_rdev de = None.
Proof.
  revert tl0. induction des as [|de des IH]; intros tl0; simpl.
  - split; [done|]. by intros (de & ?%elem_of_nil & _).
  - destruct (tty_name (d_name de)) eqn:Hname.
    + destruct (st_rdev de) as [rdev|] eqn:Hstat.
      * rewrite IH. split.
        -- intros (de' & Hin & Hde'). exists de'. split; [by right|done].
        -- intros (de' & [->|Hin]%elem_of_cons & Hn & Hs); [congruence|].
           by exists de'.
      * split; [|done]. intros _. exists de. split; [left|done].
    + rewrite IH. split.
      * intros (de' & Hin & Hde'). exists de'. split; [by right|done].
      * intros (de' & [->|Hin]%elem_of_cons & Hn & Hs); [congruence|].
        by exists de'.
Qed.

(** The terminal that the loop of [main] finds in the list of [findttys]
    comes from the last entry of the directory with that device. *)
Lemma findtty_reverse des d :
  match findtty (reverse (omap tty_entry des)) d with
  | Some t =>
      ∃ des1 de des2,
        des = des1 ++ de :: des2 ∧
        tty_entry de = Some t ∧ tty_dev t = d ∧
        ∀ de' t', de' ∈ des2 → tty_entry de' = Some t' → tty_dev t' ≠ d
  | None => ∀ de t, de ∈ des → tty_entry de = Some t → tty_dev t ≠ d
  end.
Proof.
  induction des as [|de des IH] using rev_ind.
  - simpl. by intros de t ?%elem_of_nil.
  - rewrite omap_app, reverse_app. simpl.
    destruct (tty_entry de) as [t0|] eqn:Hde; simpl.
    + unfold findtty. simpl. case_bool_decide as Hd.
      * exists des, de, []. split_and!; [done..|].
        by intros de' t' ?%elem_of_nil.
      * fold (findtty (reverse (omap tty_entry des)) d).
        destruct (findtty (reverse (omap tty_entry des)) d) as [t|].
        -- destruct IH as (des1 & de0 & des2 & -> & Ht & Htd & Hlast).
           exists des1, de0, (des2 ++ [de]).
           rewrite <- app_assoc. split_and!; [done..|].
           intros de' t' [Hin|Hin%list_elem_of_singleton]%elem_of_app Ht';
             [by eapply Hlast|subst; congruence].
        -- intros de' t' [Hin|Hin%list_elem_of_singleton]%elem_of_app Ht';
             [by eapply IH|subst; congruence].
    + destruct (findtty (reverse (omap tty_entry des)) d) as [t|].
      * destruct IH as (des1 & de0 & des2 & -> & Ht & Htd & Hlast).
        exists des1, de0, (des2 ++ [de]).
        rewrite <- app_assoc. split_and!; [done..|].
        intros de' t' [Hin|Hin%list_elem_of_singleton]%elem_of_app Ht';
          [by eapply Hlast|subst; congruence].
      * intros de' t' [Hin|Hin%list_elem_of_singleton]%elem_of_app Ht';
          [by eapply IH|subst; congruence].
Qed.

(** ** What every request and every sweep keep *)

Ltac case_handlehist :=
  repeat (match goal with
          | |- context [decide ?P] => destruct (decide P)
          | |- context [mbind _ (?m !! ?k)] => destruct (m !! k) eqn:?
          | |- context [match ?x with _ => _ end] => destruct x eqn:?
          end; simpl in * ).

Lemma strncpy_no_nul s n : nul_free (strncpy s n) = true.
Proof.
  revert n. induction s as [|c s IH]; intros [|n]; simpl; [done..|].
  destruct (Ascii.eqb c NUL) eqn:Hc; simpl; [done|]. by rewrite Hc, IH.
Qed.

Lemma handlehist_keeps_key m th h t m' h' out :
  handlehist m th h t = Some (m', h', out) → key h' = key h.
Proof.
  unfold handlehist, totty, key. destruct (th_request th); simpl;
    case_handlehist; intros [= <- <- <-]; done.
Qed.

(** A request leaves the texts of the cells as they are; the text of a new
    cell comes from [strncpy]. *)
Lemma handlehist_texts m th h t m' h' out a l' :
  handlehist m th h t = Some (m', h', out) → m' !! a = Some l' →
  (∃ l, m !! a = Some l ∧ text l' = text l) ∨
  text l' = strncpy (th_info th) (th_len th).
Proof.
  unfold handlehist, totty. destruct (th_request th); simpl;
    case_handlehist; intros [= <- <- <-] Ha; eauto.
  - destruct (decide (a = p)) as [->|Hap].
    + rewrite lookup_insert_eq in Ha. injection Ha as <-. simpl.
      match goal with H : _ !! p = Some _ |- _ => rename H into Hp end.
      destruct (decide (p = malloc m)) as [->|Hpm].
      * rewrite lookup_insert_eq in Hp. injection Hp as <-. by right.
      * rewrite lookup_insert_ne in Hp by done. left. eauto.
    + rewrite lookup_insert_ne in Ha by done.
      destruct (decide (a = malloc m)) as [->|Ham].
      * rewrite lookup_insert_eq in Ha. injection Ha as <-. by right.
      * rewrite lookup_insert_ne in Ha by done. left. eauto.
  - destruct (decide (a = malloc m)) as [->|Ham].
    + rewrite lookup_insert_eq in Ha. injection Ha as <-. by right.
    + rewrite lookup_insert_ne in Ha by done. left. eauto.
Qed.

Lemma free_lines_subheap fuel m p m' a l :
  free_lines fuel m p = Some m' → m' !! a = Some l → m !! a = Some l.
Proof.
  revert m p. induction fuel as [|fuel IH]; intros m [b|]; simpl;
    [done|by intros [= <-]| |by intros [= <-]].
  destruct (m !! b) as [lb|] eqn:Hb; simpl; [|done].
  intros Hfree Ha. specialize (IH _ _ Hfree Ha).
  destruct (decide (a = b)) as [->|Hab].
  - by rewrite lookup_delete_eq in IH.
  - by rewrite lookup_delete_ne in IH.
Qed.

(** Whenever [cleanup] returns, it has kept the sessions whose probe did
    not fail with [ESRCH], and has allocated and written nothing. *)
Lemma cleanup_filter kill m hs m' hs' :
  cleanup kill m hs = Some (m', hs') →
  hs' = filter (λ h, no_such_process kill h = false) hs ∧
  ∀ a l, m' !! a = Some l → m !! a = Some l.
Proof.
  revert m m' hs'. induction hs as [|h hs IH]; intros m m' hs'; simpl.
  - intros [= <- <-]. done.
  - rewrite filter_cons. destruct (no_such_process kill h) eqn:Hgone.
    + destruct (free_lines (size m) m (lines h)) as [m1|] eqn:Hfree;
        simpl; [|done].
      intros Hclean. destruct (IH _ _ _ Hclean) as [-> Hsub].
      split; [done|]. intros a l Ha. eapply free_lines_subheap; eauto.
    + destruct (cleanup kill m hs) as [[m1 hs1]|] eqn:Hclean; simpl; [|done].
      intros [= <- <-]. destruct (IH _ _ _ Hclean) as [-> Hsub]. done.
Qed.

Lemma lookup_hist_None hs p d :
  lookup_hist hs p d = None → (p, d) ∉ key <$> hs.
Proof.
  induction hs as [|h hs IH]; simpl; [by intros _ ?%elem_of_nil|].
  destruct ((pid h =? p) && (dev h =? d)) eqn:Hk; [done|].
  destruct (lookup_hist hs p d); [done|]. intros _.
  intros [Hh|Hin]%elem_of_cons; [|by apply IH].
  unfold key in Hh. injection Hh as Hp Hd.
  rewrite <- Hp, <- Hd, !Z.eqb_refl in Hk. done.
Qed.

Lemma lookup_hist_first hs p d i j h :
  lookup_hist hs p d = Some i → (j < i)%nat → hs !! j = Some h →
  key h ≠ (p, d).
Proof.
  revert i j. induction hs as [|h0 hs IH]; intros i j; simpl; [done|].
  destruct ((pid h0 =? p) && (dev h0 =? d)) eqn:Hk.
  - intros [= <-]. lia.
  - destruct (lookup_hist hs p d) as [i'|]; [|done]. intros [= <-] Hj.
    destruct j as [|j]; simpl.
    + intros [= <-] [= Hp Hd]. rewrite Hp, Hd, !Z.eqb_refl in Hk. done.
    + apply (IH i' j); [done|lia].
Qed.

(** The session that [findhist] returns has the key asked for. *)
Lemma findhist_key hs p d :
  ∃ h, (findhist hs p d).1 !! (findhist hs p d).2 = Some h ∧ key h = (p, d).
Proof.
  unfold findhist. destruct (lookup_hist hs p d) as [i|] eqn:Hfind; simpl.
  - apply lookup_hist_Some in Hfind as (h & Hi & <- & <-). by exists h.
  - by eexists.
Qed.

Lemma lookup_hist_here hs p d i h :
  hs !! i = Some h → key h = (p, d) →
  (∀ j h', (j < i)%nat → hs !! j = Some h' → key h' ≠ (p, d)) →
  lookup_hist hs p d = Some i.
Proof.
  revert i. induction hs as [|h0 hs IH]; intros i; [done|]. simpl.
  destruct i as [|i]; simpl.
  - intros [= <-] [= Hp Hd] _. by rewrite Hp, Hd, !Z.eqb_refl.
  - intros Hi Hk Hfirst.
    destruct ((pid h0 =? p) && (dev h0 =? d)) eqn:Hk0.
    + apply andb_true_iff in Hk0 as [Hp Hd].
      destruct (Hfirst O h0); [lia|done|]. unfold key. f_equal; lia.
    + rewrite (IH i); [done..|]. intros j h' Hj Hh'.
      apply (Hfirst (S j) h'); [lia|done].
Qed.

Lemma main_iteration_texts tl kill starttime now th m hs m' hs' out :
  main_iteration tl kill starttime now th m hs = Some (m', hs', out) →
  texts_nul_free m → texts_nul_free m'.
Proof.
  unfold main_iteration.
  destruct (now <=? starttime + 2); [by intros [= <- <- <-]|].
  destruct (find _ tl) as [t|]; [|by intros [= <- <- <-]].
  destruct (findhist hs (th_pid th) (th_tty th)) as [hs1 i].
  destruct (hs1 !! i) as [h|]; simpl; [|done].
  destruct (handlehist m th h t) as [[[m1 h'] out1]|] eqn:Hh; simpl; [|done].
  destruct (cleanup kill m1 _) as [[m2 hs2]|] eqn:Hc; simpl; [|done].
  intros [= <- <- <-] Htexts a l Ha.
  apply cleanup_filter in Hc as [_ Hsub]. apply Hsub in Ha.
  destruct (handlehist_texts _ _ _ _ _ _ _ _ _ Hh Ha) as [(l0 & Hl0 & ->)| ->].
  - by eapply Htexts.
  - apply strncpy_no_nul.
Qed.

Lemma main_iteration_keys tl kill starttime now th m hs m' hs' out :
  main_iteration tl kill starttime now th m hs = Some (m', hs', out) →
  NoDup (key <$> hs) → NoDup (key <$> hs').
Proof.
  unfold main_iteration.
  destruct (now <=? starttime + 2); [by intros [= <- <- <-]|].
  destruct (find _ tl) as [t|]; [|by intros [= <- <- <-]].
  destruct (findhist_key hs (th_pid th) (th_tty th)) as (h & Hi & Hk).
  assert (NoDup (key <$> hs) → NoDup (key <$> (findhist hs (th_pid th) (th_tty th)).1))
    as Hfind.
  { unfold findhist.
    destruct (lookup_hist hs (th_pid th) (th_tty th)) eqn:Hl; simpl; [done|].
    intros Hnd. apply NoDup_cons. split; [|done].
    by apply lookup_hist_None. }
  destruct (findhist hs (th_pid th) (th_tty th)) as [hs1 i]. simpl in *.
  rewrite Hi. simpl.
  destruct (handlehist m th h t) as [[[m1 h'] out1]|] eqn:Hh; simpl; [|done].
  destruct (cleanup kill m1 _) as [[m2 hs2]|] eqn:Hc; simpl; [|done].
  intros [= <- <- <-] Hnd.
  apply cleanup_filter in Hc as [-> _].
  apply (sublist_NoDup _ (key <$> <[i:=h']> hs1)).
  - rewrite list_fmap_insert, (handlehist_keeps_key _ _ _ _ _ _ _ Hh).
    rewrite list_insert_id; [by apply Hfind|].
    by rewrite list_lookup_fmap, Hi.
  - apply fmap_sublist, sublist_filter.
Qed.

Lemma cells_elem_inv ss a : a ∈ cells ss → ∃ s, s ∈ ss ∧ a ∈ s.2.*1.
Proof.
  induction ss as [|s ss IH]; [by intros ?%elem_of_nil|].
  rewrite cells_cons. intros [Ha|Ha]%elem_of_app.
  - exists s. split; [left|done].
  - destruct (IH Ha) as (s' & Hs' & Ha'). exists s'. split; [by right|done].
Qed.

Lemma cells_insert_mono ss i h cs h' cs_new a :
  ss !! i = Some (h, cs) → a ∈ cells ss →
  a ∈ cells (<[i := (h', cs ++ cs_new)]> ss).
Proof.
  revert i. induction ss as [|s ss IH]; intros i; [done|].
  destruct i as [|i]; simpl; rewrite !cells_cons, !elem_of_app.
  - intros [= ->]. simpl. rewrite fmap_app, elem_of_app. tauto.
  - intros Hi [Ha|Ha]; [by left|]. right. by apply IH.
Qed.

Lemma cells_disjoint ss i j s1 s2 a :
  NoDup (cells ss) → ss !! i = Some s1 → ss !! j = Some s2 → i ≠ j →
  a ∈ s1.2.*1 → a ∉ s2.2.*1.
Proof.
  revert i j. induction ss as [|s ss IH]; intros i j; [done|].
  rewrite cells_cons, NoDup_app. intros (_ & Hdisj & Hnd).
  destruct i as [|i], j as [|j]; simpl; [done| | |].
  - intros [= ->] Hj _ Ha Ha'. apply (Hdisj a Ha).
    apply (cells_elem ss s2 a); [by eapply list_elem_of_lookup_2|done].
  - intros Hi [= ->] _ Ha Ha'. apply (Hdisj a Ha').
    apply (cells_elem ss s1 a); [by eapply list_elem_of_lookup_2|done].
  - intros Hi Hj Hij. apply (IH i j); [done..|lia].
Qed.

(** What a round does with a request that it dispatches. *)
Lemma main_iteration_dispatch tl kill starttime now th m ss t :
  store_inv m ss → starttime + 2 < now → findtty tl (th_tty th) = Some t →
  ∃ ss1 i h cs m1 h' out cs_new m2,
    (ss1 = ss ∨
     ss1 = ({| pid := th_pid th; dev := th_tty th; lines := None;
               current := None |}, []) :: ss) ∧
    store_inv m ss1 ∧
    ss1 !! i = Some (h, cs) ∧ key h = (th_pid th, th_tty th) ∧
    handlehist m th h t = Some (m1, h', out) ∧
    session_inv m1 h' (cs ++ cs_new) ∧
    (∀ a, a ∈ cs_new.*1 → m !! a = None) ∧
    (∀ b, b ∉ cs.*1 → b ∉ cs_new.*1 → m1 !! b = m !! b) ∧
    store_inv m1 (<[i := (h', cs ++ cs_new)]> ss1) ∧
    main_iteration tl kill starttime now th m ss.*1 =
      Some (m2,
            (filter (λ s, no_such_process kill s.1 = false)
               (<[i := (h', cs ++ cs_new)]> ss1)).*1,
            out) ∧
    store_inv m2
      (filter (λ s, no_such_process kill s.1 = false)
         (<[i := (h', cs ++ cs_new)]> ss1)) ∧
    (∀ s, s ∈ <[i := (h', cs ++ cs_new)]> ss1 →
          no_such_process kill s.1 = true →
          ∀ a, a ∈ s.2.*1 → m2 !! a = None) ∧
    (∀ s, s ∈ <[i := (h', cs ++ cs_new)]> ss1 →
          no_such_process kill s.1 = false →
          session_inv m2 s.1 s.2 ∧ ∀ a, a ∈ s.2.*1 → m2 !! a = m1 !! a) ∧
    (∀ a l, m2 !! a = Some l → m1 !! a = Some l).
Proof.
  intros Hst Hnow Htty. unfold main_iteration.
  rewrite (proj2 (Z.leb_gt _ _)) by done.
  change (find _ tl) with (findtty tl (th_tty th)). rewrite Htty.
  destruct (findhist_inv m ss (th_pid th) (th_tty th) Hst)
    as (ss1 & h & cs & Hfind & Hst1 & Hi & Hss1).
  destruct (findhist_key ss.*1 (th_pid th) (th_tty th)) as (h0 & Hi0 & Hk).
  rewrite Hfind in Hi0 |- *. simpl in Hi0.
  rewrite list_lookup_fmap, Hi in Hi0 |- *. simpl in Hi0 |- *.
  injection Hi0 as <-.
  pose proof (Forall_lookup_1 _ _ _ _ (proj1 Hst1) Hi) as Hs. simpl in Hs.
  destruct (handlehist_inv m h cs th t Hs)
    as (m1 & h' & out & cs_new & Hh & Hs' & Hnew & Hframe).
  rewrite Hh. simpl.
  pose proof (store_inv_update m m1 ss1 _ h cs h' cs_new
                Hst1 Hi Hs' Hnew Hframe) as Hst2.
  destruct (sweep_spec kill m1 _ Hst2)
    as (m2 & Hclean & Hst3 & Hgone & Halive & _ & _).
  rewrite list_fmap_insert in Hclean. simpl in Hclean.
  rewrite Hclean. simpl.
  exists ss1, (findhist ss.*1 (th_pid th) (th_tty th)).2, h, cs, m1, h', out,
    cs_new, m2.
  split_and!; try done.
  - replace (<[(findhist ss.*1 (th_pid th) (th_tty th)).2:=h']> ss1.*1)
      with ((<[(findhist ss.*1 (th_pid th) (th_tty th)).2:=(h', cs ++ cs_new)]>
               ss1).*1) by (by rewrite list_fmap_insert).
    by rewrite <- filter_fst.
  - by apply cleanup_filter in Hclean as [_ Hsub].
Qed.

Lemma main_iteration_no_leak tl kill starttime now th m ss :
  store_inv m ss → no_leak m ss →
  ∃ m' ss' out,
    main_iteration tl kill starttime now th m ss.*1 = Some (m', ss'.*1, out) ∧
    store_inv m' ss' ∧ no_leak m' ss'.
Proof.
  intros Hst Hleak.
  destruct (Z.leb_spec now (starttime + 2)) as [Hnow|Hnow].
  { exists m, ss, []. unfold main_iteration.
    by rewrite (proj2 (Z.leb_le _ _)) by done. }
  destruct (findtty tl (th_tty th)) as [t|] eqn:Htty; last first.
  { eexists m, ss, _. unfold main_iteration.
    rewrite (proj2 (Z.leb_gt _ _)) by done.
    change (find _ tl) with (findtty tl (th_tty th)). by rewrite Htty. }
  destruct (main_iteration_dispatch tl kill starttime now th m ss t Hst Hnow Htty)
    as (ss1 & i & h & cs & m1 & h' & out & cs_new & m2 & Hss1 & Hst1 & Hi & _ &
        Hh & Hs' & Hnew & Hframe & Hst2 & Hrun & Hst3 & Hgone & Halive & Hsub).
  eexists m2, _, out. split; [exact Hrun|]. split; [done|].
  intros a [l Ha].
  assert (a ∈ cells (<[i:=(h', cs ++ cs_new)]> ss1)) as Hin.
  { destruct (decide (a ∈ (cs ++ cs_new).*1)) as [Hc|Hc].
    - eapply cells_lookup; [|exact Hc].
      apply list_lookup_insert_eq. by eapply lookup_lt_Some.
    - rewrite fmap_app, elem_of_app in Hc.
      apply (cells_insert_mono _ _ h cs); [done|].
      assert (a ∈ cells ss) as Ha0.
      { apply Hleak. rewrite <- Hframe by tauto. apply Hsub in Ha. eauto. }
      destruct Hss1 as [-> | ->]; [done|]. by rewrite cells_cons. }
  apply cells_elem_inv in Hin as (s & Hs & Has).
  destruct (no_such_process kill s.1) eqn:Hproc.
  - rewrite (Hgone s Hs Hproc a Has) in Ha. done.
  - eapply cells_elem; [|done]. by apply list_elem_of_filter.
Qed.

Lemma reachable_no_leak m hs :
  reachable (m, hs) → ∃ ss, hs = ss.*1 ∧ store_inv m ss ∧ no_leak m ss.
Proof.
  remember (m, hs) as st eqn:Hst. intros Hreach. revert m hs Hst.
  induction Hreach as [|tl kill starttime now th m hs m' hs' out _ IH Hstep];
    intros m0 hs0 [= <- <-].
  - exists []. split; [done|]. split; [split; constructor|].
    intros a [l Ha]. by rewrite lookup_empty in Ha.
  - destruct (IH m hs eq_refl) as (ss & -> & Hinv & Hleak).
    destruct (main_iteration_no_leak tl kill starttime now th m ss Hinv Hleak)
      as (m1 & ss1 & out1 & Hstep1 & Hinv1 & Hleak1).
    rewrite Hstep1 in Hstep. injection Hstep as <- <- _. by exists ss1.
Qed.

Lemma reachable_keys m hs : reachable (m, hs) → NoDup (key <$> hs).
Proof.
  remember (m, hs) as st eqn:Hst. intros Hreach. revert m hs Hst.
  induction Hreach as [|tl kill starttime now th m hs m' hs' out _ IH Hstep];
    intros m0 hs0 [= <- <-]; [constructor|].
  eapply main_iteration_keys; [exact Hstep|]. by apply (IH m hs).
Qed.

Lemma reachable_texts m hs : reachable (m, hs) → texts_nul_free m.
Proof.
  remember (m, hs) as st eqn:Hst. intros Hreach. revert m hs Hst.
  induction Hreach as [|tl kill starttime now th m hs m' hs' out _ IH Hstep];
    intros m0 hs0 [= <- <-].
  - intros a l Ha. by rewrite lookup_empty in Ha.
  - eapply main_iteration_texts; [exact Hstep|]. by apply (IH m hs).
Qed.

(** ** Walking the history *)

Lemma prev_stuck m h cs a x p d r t :
  session_inv m h cs → current h = Some a → cs !! O = Some (a, x) →
  handlehist_seq m (replicate r (StepOlder_request p d)) h t =
    Some (m, h, replicate r noDelivery).
Proof.
  intros Hinv Hcur Ha. induction r as [|r IH]; [done|].
  rewrite replicate_S, handlehist_seq_cons.
  rewrite (prev_oldest m h cs a x p d O EmptyString t Hinv Hcur Ha
           : handlehist m (StepOlder_request p d) h t = _).
  simpl. by rewrite IH.
Qed.

Lemma next_stuck m h p d r t :
  current h = None →
  handlehist_seq m (replicate r (StepNewer_request p d)) h t =
    Some (m, h, replicate r signalAlert).
Proof.
  intros Hcur. induction r as [|r IH]; [done|].
  rewrite replicate_S, handlehist_seq_cons.
  rewrite (next_bottom m h p d O EmptyString t Hcur
           : handlehist m (StepNewer_request p d) h t = _).
  simpl. by rewrite IH.
Qed.

Lemma next_seq m h (cs : list (positive * string)) j k p d t :
  session_inv m h cs → current h = fst <$> cs !! j →
  (j + k < length cs)%nat →
  handlehist_seq m (replicate k (StepNewer_request p d)) h t =
    Some (m,
          {| pid := pid h; dev := dev h; lines := lines h;
             current := fst <$> cs !! (j + k)%nat |},
          deliverText <$> take k (drop (S j) cs.*2)).
Proof.
  revert h j. induction k as [|k IH]; intros h j Hinv Hcur Hjk.
  - simpl. rewrite Nat.add_0_r, <- Hcur. by destruct h.
  - destruct (lookup_lt_is_Some_2 cs j) as [[a x] Ha]; [lia|].
    destruct (lookup_lt_is_Some_2 cs (S j)) as [[b y] Hb]; [lia|].
    rewrite Ha in Hcur. simpl in Hcur.
    rewrite replicate_S, handlehist_seq_cons.
    rewrite (next_newer m h cs j a x b y p d O EmptyString t Hinv Hcur Ha Hb
             : handlehist m (StepNewer_request p d) h t = _).
    simpl. rewrite (IH (set_current h (Some b)) (S j)); [|..|lia].
    + simpl. replace (j + S k)%nat with (S (j + k)) by lia. do 3 f_equal.
      assert (cs.*2 !! S j = Some y) as Hy by (by rewrite list_lookup_fmap, Hb).
      by rewrite (drop_S _ _ _ Hy).
    + apply set_current_inv; [done|]. intros ? [= <-].
      by eapply lookup_cell_elem.
    + simpl. by rewrite Hb.
Qed.

(** ** The loop of [main] *)

Lemma filter_is_open_request (out : list event) :
  filter (λ e, is_open e) (Request_event <$> out) = [].
Proof. induction out as [|e out IH]; [done|]. rewrite fmap_cons, filter_cons. done. Qed.

Lemma filter_is_close_request (out : list event) :
  filter (λ e, is_close e) (Request_event <$> out) = [].
Proof. induction out as [|e out IH]; [done|]. rewrite fmap_cons, filter_cons. done. Qed.

(** What a round that goes on has done: one open, one close unless the
    request was discarded, the size doubled if the buffer was too small. *)
Lemma main_round_next int_max tl starttime size m hs inp size' m' hs' log :
  main_round int_max tl starttime size m hs inp = Next_round size' m' hs' log →
  length (filter (λ e, is_open e) log) = 1%nat ∧
  length (filter (λ e, is_close e) log) =
    (if discarded starttime inp then 0 else 1)%nat ∧
  size' = (if too_big inp then size * 2 else size) ∧
  (too_big inp = true → size' ≤ int_max) ∧
  (if ri_ioctl inp is TIOCHELPER_ok th then
     if discarded starttime inp then m' = m ∧ hs' = hs
     else ∃ out, main_iteration tl (ri_kill inp) starttime (ri_now inp) th m hs
                 = Some (m', hs', out)
   else m' = m ∧ hs' = hs).
Proof.
  unfold main_round, discarded, too_big.
  destruct (ri_ioctl inp) as [th|errno].
  - destruct (ri_now inp <=? starttime + 2) eqn:Hnow.
    + intros [= <- <- <- <-]. done.
    + destruct (main_iteration _ _ _ _ _ _ _) as [[[m1 hs1] out]|] eqn:Hit;
        [|done].
      intros [= <- <- <- <-]. split_and!; try done; [| |by exists out].
      * rewrite filter_cons, filter_app, filter_is_open_request. done.
      * rewrite filter_cons, filter_app, filter_is_close_request. done.
  - destruct (errno =? EPERM) eqn:Hperm; [done|].
    destruct (errno =? E2BIG) eqn:Hbig; simpl.
    + destruct (size * 2 <=? int_max) eqn:Hsize; [|done].
      intros [= <- <- <- <-]. split_and!; try done. intros _. lia.
    + intros [= <- <- <- <-]. split_and!; try done.
      * by destruct (_ =? ENOTTY).
      * by destruct (_ =? ENOTTY).
Qed.

Lemma main_loop_cons int_max tl starttime size m hs inp inps :
  main_loop int_max tl starttime size m hs (inp :: inps) =
    match main_round int_max tl starttime size m hs inp with
    | Next_round size' m' hs' log =>
        match main_loop int_max tl starttime size' m' hs' inps with
        | Next_round size'' m'' hs'' log' =>
            Next_round size'' m'' hs'' (log ++ log')
        | Exit_failure log' => Exit_failure (log ++ log')
        | Undefined_round => Undefined_round
        end
    | Exit_failure log => Exit_failure log
    | Undefined_round => Undefined_round
    end.
Proof. done. Qed.

Lemma main_loop_reachable int_max tl starttime size m hs inps size' m' hs' log :
  reachable (m, hs) →
  main_loop int_max tl starttime size m hs inps = Next_round size' m' hs' log →
  reachable (m', hs').
Proof.
  revert size m hs log. induction inps as [|inp inps IH];
    intros size m hs log Hreach.
  - by intros [= <- <- <- <-].
  - rewrite main_loop_cons.
    destruct (main_round _ _ _ _ _ _ _) as [size1 m1 hs1 log1| |] eqn:Hround;
      [|done..].
    destruct (main_loop _ _ _ size1 _ _ _) as [size2 m2 hs2 log2| |] eqn:Hloop;
      [|done..].
    intros [= <- <- <- <-]. eapply IH; [|exact Hloop].
    apply main_round_next in Hround as (_ & _ & _ & _ & Hstore).
    destruct (ri_ioctl inp) as [th|errno].
    + destruct (discarded starttime inp).
      * by destruct Hstore as [-> ->].
      * destruct Hstore as [out Hit]. by eapply reachable_request.
    + by destruct Hstore as [-> ->].
Qed.

Lemma pow2_succ (k : nat) : 2 ^ Z.of_nat (S k) = 2 * 2 ^ Z.of_nat k.
Proof. rewrite Nat2Z.inj_succ, Z.pow_succ_r; lia. Qed.

Lemma pow2_pos (k : nat) : 0 < 2 ^ Z.of_nat k.
Proof. apply Z.pow_pos_nonneg; lia. Qed.

Lemma main_loop_counts int_max tl starttime size m hs inps size' m' hs' log :
  main_loop int_max tl starttime size m hs inps = Next_round size' m' hs' log →
  length (filter (λ e, is_open e) log) = length inps ∧
  (length (filter (λ e, is_close e) log) +
   length (filter (λ inp, discarded starttime inp) inps))%nat = length inps ∧
  size' = size * 2 ^ Z.of_nat (length (filter (λ inp, too_big inp) inps)) ∧
  (filter (λ inp, too_big inp) inps ≠ [] → size' ≤ int_max).
Proof.
  revert size m hs log. induction inps as [|inp inps IH];
    intros size m hs log.
  - intros [= <- <- <- <-]. simpl. split_and!; [done|done|lia|done].
  - rewrite main_loop_cons.
    destruct (main_round _ _ _ _ _ _ _) as [size1 m1 hs1 log1| |] eqn:Hround;
      [|done..].
    destruct (main_loop _ _ _ size1 _ _ _) as [size2 m2 hs2 log2| |] eqn:Hloop;
      [|done..].
    intros [= <- <- <- <-].
    apply main_round_next in Hround as (Hopen & Hclose & Hsize & Hmax & _).
    apply IH in Hloop as (Hopen' & Hclose' & Hsize' & Hmax').
    rewrite !filter_app, !length_app, !filter_cons, Hopen, Hclose, Hopen'.
    destruct (discarded starttime inp), (too_big inp); simpl;
      split_and!; try lia; subst; try done;
      try (rewrite pow2_succ; lia).
    all: intros _; destruct (filter _ inps) eqn:Hf; [|by apply Hmax'].
    all: simpl; rewrite Z.mul_1_r; by apply Hmax.
Qed.

Lemma main_loop_defined int_max tl starttime size m ss inps :
  store_inv m ss → 0 < size →
  size * 2 ^ Z.of_nat (length (filter (λ inp, too_big inp) inps)) ≤ int_max →
  main_loop int_max tl starttime size m ss.*1 inps ≠ Undefined_round.
Proof.
  revert size m ss. induction inps as [|inp inps IH];
    intros size m ss Hst Hsize Hmax; [done|].
  rewrite main_loop_cons. rewrite filter_cons in Hmax.
  destruct (too_big inp) eqn:Hbig.
  - rewrite decide_True in Hmax by done. simpl in Hmax.
    rewrite pow2_succ in Hmax.
    pose proof (pow2_pos (length (filter (λ inp, too_big inp) inps))).
    unfold main_round. unfold too_big in Hbig.
    destruct (ri_ioctl inp) as [th|errno]; [done|].
    apply andb_true_iff in Hbig as [Hperm%negb_true_iff ->]. rewrite Hperm.
    rewrite (proj2 (Z.leb_le _ _)) by nia.
    specialize (IH (size * 2) m ss Hst ltac:(lia) ltac:(lia)).
    by destruct (main_loop _ _ _ _ _ _ _).
  - rewrite decide_False in Hmax by (by intros []).
    unfold main_round. unfold too_big in Hbig.
    destruct (ri_ioctl inp) as [th|errno].
    + destruct (ri_now inp <=? starttime + 2).
      * specialize (IH size m ss Hst Hsize Hmax).
        by destruct (main_loop _ _ _ _ _ _ _).
      * destruct (main_iteration_inv tl (ri_kill inp) starttime (ri_now inp)
                    th m ss Hst) as (m1 & ss1 & out & -> & Hst1).
        specialize (IH size m1 ss1 Hst1 Hsize Hmax).
        by destruct (main_loop _ _ _ _ _ _ _).
    + destruct (errno =? EPERM); [done|]. simpl in Hbig. rewrite Hbig.
      specialize (IH size m ss Hst Hsize Hmax).
      by destruct (main_loop _ _ _ _ _ _ _).
Qed.

Lemma tty_entry_Some de t :
  tty_entry de = Some t ↔
  tty_name (d_name de) = true ∧
  st_rdev de = Some (tty_dev t) ∧ name t = d_name de.
Proof.
  unfold tty_entry. destruct (tty_name (d_name de)); [|by split; [|intros []]].
  destruct (st_rdev de) as [r|]; simpl.
  - split.
    + intros [= <-]. done.
    + intros (_ & [= ->] & Hn). destruct t. simpl in *. by subst.
  - split; [done|]. by intros (_ & ? & _).
Qed.

(** What [strncpy] and the NUL after it leave in a buffer of [n + 1]
    bytes: the beginning of the source, up to [n] bytes and up to its first
    NUL byte. *)
Lemma strncpy_beginning s n :
  ∃ rest,
    s = strncpy s n +:+ rest ∧
    (String.length (strncpy s n) ≤ n)%nat ∧
    nul_free (strncpy s n) = true ∧
    ((String.length (strncpy s n) < n)%nat →
     rest = EmptyString ∨ ∃ r, rest = String NUL r).
Proof.
  revert n. induction s as [|c s IH]; intros n.
  - exists EmptyString. destruct n; simpl; split_and!; try done; try lia;
      by left.
  - destruct n as [|n]; simpl.
    + exists (String c s). split_and!; [done|lia|done|lia].
    + destruct (Ascii.eqb c NUL) eqn:Hc.
      * apply Ascii.eqb_eq in Hc as ->. exists (String NUL s).
        simpl. split_and!; [done|lia|done|]. intros _. right. by exists s.
      * destruct (IH n) as (rest & Hs & Hlen & Hnul & Hshort).
        exists rest. split_and!.
        -- change (String c s = String c (strncpy s n +:+ rest)). by f_equal.
        -- simpl. lia.
        -- simpl. by rewrite Hc, Hnul.
        -- simpl. intros Hlt. apply Hshort. lia.
Qed.


(** ** Further properties of the code *)

(** X1.  The text that [handlehist] keeps of a line fits the [th_len + 1]
    bytes allocated for it: a request to record [th_len] bytes, not none, on
    a well-formed session returns with a new cell as the newest of the
    session, and the text of that cell is the beginning of the line, at
    most [th_len] bytes long and free of NUL bytes; it stops short of
    [th_len] bytes only where the line ends or has a NUL byte. *)
Theorem kept_text_fits_the_buffer m h cs p d n info t :
  session_inv m h cs → n ≠ O →
  ∃ m' h' a kept rest,
    handlehist m (Ttyhelper TH_HIST_KEEP p d n info) h t =
      Some (m', h', noDelivery) ∧
    lines h' = Some a ∧ m !! a = None ∧
    text <$> m' !! a = Some kept ∧
    info = kept +:+ rest ∧
    (String.length kept ≤ n)%nat ∧
    nul_free kept = true ∧
    ((String.length kept < n)%nat →
     rest = EmptyString ∨ ∃ r, rest = String NUL r).
Proof.
  intros Hinv Hn.
  destruct (keep_appends m h cs p d n info t Hinv Hn)
    as (m' & He & (Hchain & _) & _).
  destruct (strncpy_beginning info n) as (rest & Hinfo & Hlen & Hnul & Hshort).
  exists m', (set_current (set_lines h (Some (malloc m))) None), (malloc m),
    (strncpy info n), rest.
  split_and!; try done.
  by rewrite (chain_newest _ _ _ _ Hchain).
Qed.

(** X2.  In every state the daemon reaches, no stored text has a NUL byte:
    the [strlen] of [handlehist] measures the whole text of the line it
    puts into the terminal's input. *)
Theorem stored_texts_have_no_nul m hs a l :
  reachable (m, hs) → m !! a = Some l → nul_free (text l) = true.
Proof. intros Hreach. by apply (reachable_texts m hs Hreach). Qed.

(** X3.  Whatever the cursor was on, the line recorded last is the first
    one recalled: a step older right after recording a non-empty line
    delivers what was kept of that line and puts the cursor on the newest
    entry. *)
Theorem record_then_older m h cs p d x t :
  session_inv m h cs → x ≠ EmptyString →
  ∃ m' h1 h2,
    handlehist m (Record_request p d x) h t = Some (m', h1, noDelivery) ∧
    handlehist m' (StepOlder_request p d) h1 t =
      Some (m', h2, deliverText (stored_text x)) ∧
    is_Some (current h2) ∧ current h2 = lines h2.
Proof.
  intros Hinv Hx.
  destruct (keep_appends m h cs p d (String.length x) x t Hinv)
    as (m' & He & Hinv' & _); [by destruct x|].
  eexists m', _, _. split; [exact He|]. split.
  - by eapply prev_bottom.
  - simpl. eauto.
Qed.

(** X4.  A step newer followed by a step older brings the cursor back to
    the entry it was on and delivers that entry again.  A step older
    followed by a step newer does the same, except on the oldest entry,
    from which the step older does not move. *)
Theorem older_and_newer_are_inverse m h cs i a x p d t :
  session_inv m h cs → current h = Some a → cs !! i = Some (a, x) →
  (∃ h1 out,
     handlehist m (StepNewer_request p d) h t = Some (m, h1, out) ∧
     handlehist m (StepOlder_request p d) h1 t = Some (m, h, deliverText x)) ∧
  (i ≠ O →
   ∃ h1 y,
     handlehist m (StepOlder_request p d) h t = Some (m, h1, deliverText y) ∧
     handlehist m (StepNewer_request p d) h1 t = Some (m, h, deliverText x)).
Proof.
  intros Hinv Hcur Ha.
  assert (∀ c, set_current (set_current h c) (Some a) = h) as Hback.
  { intros c. destruct h. simpl in Hcur. by subst. }
  split.
  - destruct (cs !! S i) as [[b y]|] eqn:Hb.
    + exists (set_current h (Some b)), (deliverText y).
      split; [by eapply next_newer|].
      rewrite <- (Hback (Some b)) at 2.
      eapply (prev_older _ _ cs i b y a x); [|done..].
      apply set_current_inv; [done|]. intros ? [= <-].
      by eapply lookup_cell_elem.
    + assert (S i = length cs) as Hlast.
      { apply lookup_lt_Some in Ha. apply lookup_ge_None in Hb. lia. }
      exists (set_current h None), deliverEmpty.
      split; [by eapply next_newest|].
      destruct (list_nil_or_snoc cs) as [->|(cs0 & [b y] & ->)]; [done|].
      rewrite length_app in Hlast. simpl in Hlast.
      assert (i = length cs0) as -> by lia.
      rewrite list_lookup_middle in Ha by done. injection Ha as -> ->.
      rewrite <- (Hback None) at 2.
      eapply prev_bottom; [|done]. by apply set_current_inv.
  - intros Hi. destruct i as [|j]; [done|].
    destruct (lookup_lt_is_Some_2 cs j) as [[b y] Hb].
    { apply lookup_lt_Some in Ha. lia. }
    exists (set_current h (Some b)), y. split; [by eapply prev_older|].
    rewrite <- (Hback (Some b)) at 2.
    eapply (next_newer _ _ cs j b y a x); [|done..].
    apply set_current_inv; [done|]. intros ? [= <-].
    by eapply lookup_cell_elem.
Qed.

(** X5.  Stepping older more often than there are entries: from the bottom
    of a non-empty history of [n] entries, [n + r] steps older deliver the
    [n] texts, newest first, then nothing for the [r] extra steps, and leave
    the cursor on the oldest entry. *)
Theorem older_stops_at_the_oldest m h cs p d r t :
  session_inv m h cs → current h = None → cs ≠ [] →
  handlehist_seq m (replicate (length cs + r) (StepOlder_request p d)) h t =
    Some (m,
          {| pid := pid h; dev := dev h; lines := lines h;
             current := fst <$> head cs |},
          (deliverText <$> reverse cs.*2) ++ replicate r noDelivery).
Proof.
  intros Hinv Hcur Hne.
  pose proof (prev_seq m h cs (length cs) (length cs) p d t Hinv) as Hprev.
  rewrite Nat.sub_diag, drop_0 in Hprev.
  rewrite take_ge in Hprev by (by rewrite length_fmap).
  rewrite Hcur, lookup_ge_None_2 in Hprev by lia.
  specialize (Hprev eq_refl (Nat.le_refl _) (Nat.le_refl _)).
  rewrite replicate_add, handlehist_seq_app, Hprev. simpl.
  destruct cs as [|[a x] cs']; [done|].
  rewrite (prev_stuck m _ ((a, x) :: cs') a x); [done| |done..].
  destruct Hinv as (Hchain & Hlines & _). split_and!; [done..|].
  unfold cursor_ok. simpl. left.
Qed.

(** X6.  Walking back down: from the entry at position [j] of a history of
    [n] entries, [n - j + r] steps newer deliver the newer texts, oldest of
    them first, then the empty line on reaching the bottom, and then alert
    the terminal at each of the [r] extra steps; the cursor ends at the
    bottom. *)
Theorem newer_walks_to_the_bottom m h cs j a x p d r t :
  session_inv m h cs → current h = Some a → cs !! j = Some (a, x) →
  handlehist_seq m (replicate (length cs - j + r) (StepNewer_request p d)) h t =
    Some (m, set_current h None,
          (deliverText <$> drop (S j) cs.*2) ++
          deliverEmpty :: replicate r signalAlert).
Proof.
  intros Hinv Hcur Ha.
  pose proof (lookup_lt_Some _ _ _ Ha) as Hj.
  replace (length cs - j + r)%nat with ((length cs - S j) + (1 + r))%nat by lia.
  rewrite replicate_add, handlehist_seq_app.
  rewrite (next_seq m h cs j (length cs - S j)); [|done|by rewrite Ha|lia].
  simpl. replace (j + (length cs - S j))%nat with (length cs - 1)%nat by lia.
  destruct (lookup_lt_is_Some_2 cs (length cs - 1)) as [[b y] Hb]; [lia|].
  rewrite Hb. simpl.
  assert (session_inv m
            {| pid := pid h; dev := dev h; lines := lines h;
               current := Some b |} cs) as Hinv1.
  { destruct Hinv as (Hchain & Hlines & _). split_and!; [done..|].
    unfold cursor_ok. simpl. by eapply lookup_cell_elem. }
  pose proof (next_newest m _ cs (length cs - 1) b y p d O EmptyString t
                Hinv1 eq_refl Hb ltac:(lia)) as Hstep.
  rewrite (Hstep : handlehist m (StepNewer_request p d) _ t = _). simpl.
  rewrite next_stuck by done. simpl. do 3 f_equal.
  rewrite take_ge; [done|]. rewrite length_drop, length_fmap. lia.
Qed.

(** X7.  [findhist] finds again what it returns: the session at the
    position it gives has the key asked for and is the first with that key,
    so that a second [findhist] gives the same list and position.  A key
    that was missing gets an empty session at the head; otherwise the list
    is as before. *)
Theorem findhist_finds_again hs p d :
  (∃ h, (findhist hs p d).1 !! (findhist hs p d).2 = Some h ∧ key h = (p, d)) ∧
  (∀ j h, (j < (findhist hs p d).2)%nat → (findhist hs p d).1 !! j = Some h →
          key h ≠ (p, d)) ∧
  findhist (findhist hs p d).1 p d = findhist hs p d ∧
  (lookup_hist hs p d = None →
   findhist hs p d =
     ({| pid := p; dev := d; lines := None; current := None |} :: hs, O)) ∧
  (∀ i, lookup_hist hs p d = Some i → findhist hs p d = (hs, i)).
Proof.
  split_and!.
  - apply findhist_key.
  - unfold findhist. destruct (lookup_hist hs p d) as [i|] eqn:Hl; simpl.
    + intros j h Hj Hh. by eapply lookup_hist_first.
    + intros j h Hj. lia.
  - unfold findhist at 2 3. destruct (lookup_hist hs p d) as [i|] eqn:Hl; simpl.
    + unfold findhist. by rewrite Hl.
    + unfold findhist. simpl. by rewrite !Z.eqb_refl.
  - intros Hl. unfold findhist. by rewrite Hl.
  - intros i Hl. unfold findhist. by rewrite Hl.
Qed.

(** X8.  In every state the daemon reaches, no two sessions have the same
    process and device, and every session is the one that the lookup of
    [findhist] finds for its key. *)
Theorem keys_stay_unique m hs :
  reachable (m, hs) →
  NoDup (key <$> hs) ∧
  ∀ i h, hs !! i = Some h → lookup_hist hs (pid h) (dev h) = Some i.
Proof.
  intros Hreach. pose proof (reachable_keys m hs Hreach) as Hnd.
  split; [done|]. intros i h Hi.
  apply (lookup_hist_here hs _ _ i h); [done..|].
  intros j h' Hj Hh' Hk.
  assert ((key <$> hs) !! j = Some (key h)) as Hkj
    by (rewrite list_lookup_fmap, Hh'; simpl; by rewrite Hk).
  assert ((key <$> hs) !! i = Some (key h)) as Hki
    by (by rewrite list_lookup_fmap, Hi).
  pose proof (NoDup_lookup _ _ _ _ Hnd Hkj Hki). lia.
Qed.

(** X9.  No history line leaks: in every state the daemon reaches, the
    allocated cells are exactly the cells of the sessions' chains, so a
    sweep that finds every process gone leaves no session and no allocated
    cell. *)
Theorem no_line_leaks m hs :
  reachable (m, hs) →
  ∃ ss,
    hs = ss.*1 ∧ store_inv m ss ∧
    (∀ a, is_Some (m !! a) ↔ a ∈ cells ss) ∧
    (∀ kill, Forall (λ h, no_such_process kill h = true) hs →
             cleanup kill m hs = Some (∅, [])).
Proof.
  intros Hreach.
  destruct (reachable_no_leak m hs Hreach) as (ss & -> & Hst & Hleak).
  exists ss. split_and!; [done..| |].
  - intros a. split; [apply Hleak|by apply store_allocated].
  - intros kill Hall.
    destruct (sweep_spec kill m ss Hst)
      as (m' & Hclean & _ & Hgone & _ & Hother & _).
    rewrite Hclean.
    rewrite (filter_none _ (λ h, no_such_process kill h = true));
      [|done|congruence].
    do 2 f_equal. apply map_eq. intros b. rewrite lookup_empty.
    destruct (decide (b ∈ cells ss)) as [Hb|Hb].
    + apply cells_elem_inv in Hb as (s & Hs & Hb).
      apply (Hgone s Hs); [|done].
      rewrite Forall_forall in Hall. apply Hall.
      apply list_elem_of_fmap. by exists s.
    + rewrite (Hother b Hb). destruct (m !! b) eqn:Hmb; [|done].
      destruct Hb. apply Hleak. eauto.
Qed.

(** X10.  A request touches its own session only: whatever the request,
    the round returns, and every session with another key whose process
    the sweep does not find gone is in the store afterwards as the same
    record, with a chain of the same cells holding what they held. *)
Theorem other_sessions_untouched tl kill starttime now th m ss :
  store_inv m ss →
  ∃ m' hs' out,
    main_iteration tl kill starttime now th m ss.*1 = Some (m', hs', out) ∧
    ∀ h cs, (h, cs) ∈ ss → key h ≠ (th_pid th, th_tty th) →
            no_such_process kill h = false →
            h ∈ hs' ∧ session_inv m' h cs ∧
            ∀ a, a ∈ cs.*1 → m' !! a = m !! a.
Proof.
  intros Hst.
  assert (∀ h cs, (h, cs) ∈ ss →
            h ∈ ss.*1 ∧ session_inv m h cs ∧
            ∀ a, a ∈ cs.*1 → m !! a = m !! a) as Hsame.
  { intros h cs Hin. split_and!; [|..|done].
    - apply list_elem_of_fmap. by exists (h, cs).
    - destruct Hst as [Hall _]. rewrite Forall_forall in Hall.
      apply (Hall _ Hin). }
  destruct (Z.leb_spec now (starttime + 2)) as [Hnow|Hnow].
  { exists m, ss.*1, []. unfold main_iteration.
    rewrite (proj2 (Z.leb_le _ _)) by done. split; [done|]. eauto. }
  destruct (findtty tl (th_tty th)) as [t|] eqn:Htty; last first.
  { eexists m, ss.*1, _. unfold main_iteration.
    rewrite (proj2 (Z.leb_gt _ _)) by done.
    change (find _ tl) with (findtty tl (th_tty th)). rewrite Htty.
    split; [done|]. eauto. }
  destruct (main_iteration_dispatch tl kill starttime now th m ss t Hst Hnow Htty)
    as (ss1 & i & h & cs & m1 & h' & out & cs_new & m2 & Hss1 & Hst1 & Hi & Hk &
        Hh & Hs' & Hnew & Hframe & Hst2 & Hrun & Hst3 & Hgone & Halive & Hsub).
  eexists m2, _, out. split; [exact Hrun|].
  intros h0 cs0 Hin Hk0 Hproc.
  assert ((h0, cs0) ∈ ss1) as Hin1
    by (destruct Hss1 as [-> | ->]; [done|by right]).
  apply list_elem_of_lookup in Hin1 as [j Hj].
  assert (i ≠ j) as Hij by (intros ->; congruence).
  assert ((h0, cs0) ∈ <[i:=(h', cs ++ cs_new)]> ss1) as Hin2.
  { apply list_elem_of_lookup. exists j. by rewrite list_lookup_insert_ne. }
  destruct (Halive _ Hin2 Hproc) as [Hinv0 Hcells0]. simpl in *.
  split_and!; [|done|].
  - apply list_elem_of_fmap. exists (h0, cs0). split; [done|].
    by apply list_elem_of_filter.
  - intros a Ha. rewrite (Hcells0 a Ha). apply Hframe.
    + intros Hc. by apply (cells_disjoint ss1 j i (h0, cs0) (h, cs) a
                             (proj2 Hst1) Hj Hi ltac:(done) Ha).
    + intros Hc. destruct (store_allocated m ss1 a Hst1) as [l Hl].
      { by eapply cells_lookup. }
      rewrite (Hnew a Hc) in Hl. done.
Qed.

(** X11.  A second sweep right after a sweep, the processes being as they
    were, changes nothing. *)
Theorem second_sweep_changes_nothing kill m ss :
  store_inv m ss →
  ∃ m' hs',
    cleanup kill m ss.*1 = Some (m', hs') ∧
    cleanup kill m' hs' = Some (m', hs').
Proof.
  intros Hst.
  destruct (sweep_spec kill m ss Hst) as (m' & Hclean & Hst' & _).
  eexists m', _. split; [exact Hclean|].
  rewrite <- filter_fst.
  destruct (sweep_spec kill m' _ Hst') as (m'' & Hclean' & _ & _ & _ & _ & Hsame).
  assert (Forall (λ h, no_such_process kill h = false)
            (filter (λ s, no_such_process kill s.1 = false) ss).*1) as Hall.
  { apply Forall_fmap, Forall_forall. by intros s [Hs _]%list_elem_of_filter. }
  rewrite Hclean', (Hsame Hall). by rewrite filter_all.
Qed.

(** X12.  The names that [findttys] takes for terminals are the ones that
    start with [tty] or with [cons]. *)
Theorem tty_name_starts nm :
  tty_name nm = true ↔ (∃ r, nm = "tty" +:+ r) ∨ (∃ r, nm = "cons" +:+ r).
Proof.
  unfold tty_name. rewrite orb_true_iff, !Z.eqb_eq.
  rewrite <- (strncmp_prefix "tty" nm), <- (strncmp_prefix "cons" nm) by done.
  done.
Qed.

(** X13.  [findttys] returns when the directory can be opened and [stat]
    succeeds on every entry with a terminal's name, and then lists those
    entries with their device numbers, the last one read first; it exits
    when the directory cannot be opened and when [stat] fails on an entry
    with a terminal's name.  Entries with other names are not looked at. *)
Theorem findttys_lists_the_terminals des :
  (Forall (λ de, tty_name (d_name de) = true → is_Some (st_rdev de)) des →
   findttys (Some des) = Some (reverse (omap tty_entry des))) ∧
  (findttys (Some des) = None ↔
   ∃ de, de ∈ des ∧ tty_name (d_name de) = true ∧ st_rdev de = None) ∧
  (∀ tl t, findttys (Some des) = Some tl →
     t ∈ tl ↔
     ∃ de, de ∈ des ∧ tty_name (d_name de) = true ∧
           st_rdev de = Some (tty_dev t) ∧ name t = d_name de) ∧
  findttys None = None.
Proof.
  unfold findttys. split_and!; [| | |done].
  - intros Hall. apply findttys_loop_Some. by rewrite app_nil_r.
  - apply findttys_loop_None.
  - intros tl t [_ ->]%findttys_loop_Some. rewrite app_nil_r.
    rewrite elem_of_reverse, list_elem_of_omap.
    split; intros (de & Hde & Ht); exists de; (split; [done|]);
      by apply tty_entry_Some.
Qed.

(** X14.  Which terminal a request is served on: in the list that
    [findttys] returns, the loop of [main] finds a terminal for a device
    exactly when some entry of the directory with a terminal's name has that
    device, and then the terminal has the name of the last such entry that
    the directory gave. *)
Theorem findtty_takes_the_last_entry des tl d :
  findttys (Some des) = Some tl →
  (∀ t, findtty tl d = Some t →
     ∃ des1 de des2,
       des = des1 ++ de :: des2 ∧
       tty_name (d_name de) = true ∧ st_rdev de = Some d ∧
       t = {| name := d_name de; tty_dev := d |} ∧
       ∀ de', de' ∈ des2 → tty_name (d_name de') = true →
              st_rdev de' ≠ Some d) ∧
  (findtty tl d = None ↔
   ∀ de, de ∈ des → tty_name (d_name de) = true → st_rdev de ≠ Some d).
Proof.
  unfold findttys. intros [_ ->]%findttys_loop_Some. rewrite app_nil_r.
  pose proof (findtty_reverse des d) as Hfind.
  destruct (findtty (reverse (omap tty_entry des)) d) as [t|].
  - destruct Hfind as (des1 & de & des2 & -> & Ht & Htd & Hlast).
    apply tty_entry_Some in Ht as (Hname & Hstat & Hnm).
    split.
    + intros t' [= <-]. exists des1, de, des2.
      split_and!; [done|done|by rewrite Hstat, Htd| |].
      * destruct t. simpl in *. by subst.
      * intros de' Hin Hname' Hstat'.
        apply (Hlast de' {| name := d_name de'; tty_dev := d |} Hin); [|done].
        by apply tty_entry_Some.
    + split; [done|]. intros Hnone. destruct (Hnone de); [|done|].
      * apply elem_of_app. right. left.
      * by rewrite Hstat, Htd.
  - split; [done|]. split; [|done]. intros _ de Hin Hname Hstat.
    apply (Hfind de {| name := d_name de; tty_dev := d |} Hin); [|done].
    by apply tty_entry_Some.
Qed.

(** X15.  The request buffer doubles each time the driver finds it too
    small and changes at no other time: after rounds that all go on, its
    size is the size at the start times two to the number of those rounds,
    and it is at most [INT_MAX] once it has been doubled. *)
Theorem buffer_size_doubles int_max tl starttime size m hs inps size' m' hs' log :
  main_loop int_max tl starttime size m hs inps = Next_round size' m' hs' log →
  size' = size * 2 ^ Z.of_nat (length (filter (λ inp, too_big inp) inps)) ∧
  (filter (λ inp, too_big inp) inps ≠ [] → size' ≤ int_max).
Proof.
  intros Hloop.
  by apply main_loop_counts in Hloop as (_ & _ & Hsize & Hmax).
Qed.

(** X16.  Every round opens the console, and closes it again unless it
    discards the request as stale: after rounds that all go on, there is one
    open for each round, and the closes fall short of the opens by the
    number of requests discarded. *)
Theorem console_stays_open_when_discarding int_max tl starttime size m hs inps
    size' m' hs' log :
  main_loop int_max tl starttime size m hs inps = Next_round size' m' hs' log →
  length (filter (λ e, is_open e) log) = length inps ∧
  (length (filter (λ e, is_close e) log) +
   length (filter (λ inp, discarded starttime inp) inps))%nat =
    length (filter (λ e, is_open e) log).
Proof.
  intros Hloop.
  apply main_loop_counts in Hloop as (Hopen & Hclose & _ & _).
  by rewrite Hopen.
Qed.

(** X17.  Started on the empty store, the loop of [main] never reads
    through a pointer that is not allocated: as long as the doubled buffer
    size stays within [INT_MAX], no round is undefined, and every store the
    loop gets to is well formed. *)
Theorem main_loop_is_defined int_max tl starttime size inps :
  0 < size →
  size * 2 ^ Z.of_nat (length (filter (λ inp, too_big inp) inps)) ≤ int_max →
  main_loop int_max tl starttime size ∅ [] inps ≠ Undefined_round ∧
  ∀ size' m' hs' log,
    main_loop int_max tl starttime size ∅ [] inps =
      Next_round size' m' hs' log →
    ∃ ss, hs' = ss.*1 ∧ store_inv m' ss.
Proof.
  intros Hsize Hmax. split.
  - apply (main_loop_defined int_max tl starttime size ∅ []); [|done..].
    split; constructor.
  - intros size' m' hs' log Hloop. apply reachable_inv.
    eapply main_loop_reachable; [apply reachable_start|exact Hloop].
Qed.

End Daemon.

(** ** The theorems at sample states *)

(** [next_free] is an allocator. *)
Lemma next_free_fresh (m : gmap positive line) : m !! next_free m = None.
Proof. apply not_elem_of_dom. unfold next_free. apply (is_fresh (dom m)). Qed.

(** The daemon reaches the state with [ls] and [pwd] recorded. *)
Lemma ls_pwd_reachable : reachable next_free (ls_pwd, [at_bottom]).
Proof.
  eapply (reachable_request next_free [ttyp0] all_alive 0 10
            (Record_request 100 5 "pwd")).
  - eapply (reachable_request next_free [ttyp0] all_alive 0 10
              (Record_request 100 5 "ls")); [apply reachable_start|].
    reflexivity.
  - reflexivity.
Qed.

(** One step older from there puts the cursor on [pwd]. *)
Lemma on_pwd_reachable : reachable next_free (ls_pwd, [on_pwd]).
Proof.
  eapply (reachable_request next_free [ttyp0] all_alive 0 10
            (StepOlder_request 100 5)); [exact ls_pwd_reachable|].
  reflexivity.
Qed.

(** The daemon reaches the store with the sessions of two processes:
    process 200 asks first, then [ls] and [pwd] are recorded for process
    100 and [make] for process 200, and both step older once. *)
Lemma two_sessions_reachable :
  reachable next_free (two_sessions, [on_pwd; other_session]).
Proof.
  eapply (reachable_request next_free [ttyp0] all_alive 0 10
            (StepOlder_request 100 5)).
  - eapply (reachable_request next_free [ttyp0] all_alive 0 10
              (StepOlder_request 200 5)).
    + eapply (reachable_request next_free [ttyp0] all_alive 0 10
                (Record_request 200 5 "make")).
      * eapply (reachable_request next_free [ttyp0] all_alive 0 10
                  (Record_request 100 5 "pwd")).
        -- eapply (reachable_request next_free [ttyp0] all_alive 0 10
                     (Record_request 100 5 "ls")).
           ++ eapply (reachable_request next_free [ttyp0] all_alive 0 10
                        (StepOlder_request 200 5)); [apply reachable_start|].
              reflexivity.
           ++ reflexivity.
        -- reflexivity.
      * reflexivity.
    + reflexivity.
  - reflexivity.
Qed.

(** [ls] and [pwd] are recalled newest first. *)
Lemma recall_newest_first_witness :
  Forall (λ L, L ≠ EmptyString) ["ls"; "pwd"] ∧
  ∃ m' h' cs,
    handlehist_seq next_free ∅
      ((Record_request 100 5 <$> ["ls"; "pwd"]) ++
       replicate 2 (StepOlder_request 100 5)) new_session ttyp0 =
      Some (m', h',
            [noDelivery; noDelivery; deliverText "pwd"; deliverText "ls"]) ∧
    session_inv m' h' cs ∧
    cs.*2 = ["ls"; "pwd"] ∧
    current h' = fst <$> head cs ∧
    (∀ L, L ∈ ["ls"; "pwd"] → nul_free L = true → stored_text L = L).
Proof.
  assert (Forall (λ L : string, L ≠ EmptyString) ["ls"; "pwd"]) as H
    by (repeat constructor; discriminate).
  split; [exact H|].
  exact (recall_newest_first next_free next_free_fresh ∅ 100 5 ttyp0
           ["ls"; "pwd"] H).
Defined.

(** A line that starts with a NUL byte is recalled as the empty line. *)
Lemma recall_cuts_at_nul :
  nul_ls ≠ EmptyString ∧
  handlehist_seq next_free ∅
    [Record_request 100 5 nul_ls; StepOlder_request 100 5]
    new_session ttyp0 =
    Some ({[ 1%positive := {| prev := None; text := ""; next := None |} ]},
          {| pid := 100; dev := 5; lines := Some 1%positive;
             current := Some 1%positive |},
          [noDelivery; deliverText ""]) ∧
  deliverText "" ≠ deliverText nul_ls.
Proof. split; [done|]. split; [reflexivity|discriminate]. Qed.

(** An unknown request of process 300 while process 100 is gone: the store
    gets a session for 300 and loses the one of 100; the session of 200 is
    as before. *)
Lemma unknown_request_store_witness :
  store_inv two_sessions two_sessions_cells ∧
  ∃ m',
    main_iteration next_free [ttyp0] only_100_gone 0 10
      (Ttyhelper (TH_OTHER 99) 300 5 O "") two_sessions
      [on_pwd; other_session] =
      Some (m',
            [{| pid := 300; dev := 5; lines := None; current := None |};
             other_session],
            invalidRequest 99 "ttyp0") ∧
    session_inv m' other_session [(3%positive, "make")].
Proof.
  assert (store_inv two_sessions two_sessions_cells) as H by by_evaluation.
  split; [exact H|].
  destruct (proj2 (proj2
              (unknown_request_store next_free [ttyp0] only_100_gone 0 10 99
                 300 5 O "" two_sessions two_sessions_cells H))
              ttyp0 ltac:(lia) eq_refl) as (m' & Hrun & _ & Hkept & _).
  exists m'. split; [exact Hrun|].
  apply (Hkept other_session [(3%positive, "make")]); [|reflexivity].
  right. left.
Defined.

(** An unknown request creates a session on the empty store, and lets the
    sweep remove the session of a process that is gone. *)
Lemma unknown_request_changes_store :
  main_iteration next_free [ttyp0] all_alive 0 10
    (Ttyhelper (TH_OTHER 99) 100 5 O "") ∅ [] =
    Some (∅, [new_session], invalidRequest 99 "ttyp0") ∧
  main_iteration next_free [ttyp0] only_100_gone 0 10
    (Ttyhelper (TH_OTHER 99) 200 5 O "") two_sessions
    [on_pwd; other_session] =
    Some ({[ 3%positive := {| prev := None; text := "make"; next := None |} ]},
          [other_session], invalidRequest 99 "ttyp0").
Proof. split_and!; reflexivity. Qed.

(** One step older from [pwd] leads to [ls]. *)
Lemma StepOlder_cases_witness :
  session_inv ls_pwd on_pwd ls_pwd_cells ∧
  handlehist next_free ls_pwd (StepOlder_request 100 5) on_pwd ttyp0 =
    Some (ls_pwd, on_ls, deliverText "ls").
Proof.
  assert (session_inv ls_pwd on_pwd ls_pwd_cells) as H by by_evaluation.
  split; [exact H|].
  exact (proj1 (proj2 (proj2
           (StepOlder_cases next_free ls_pwd on_pwd ls_pwd_cells 100 5 O ""
              ttyp0 H)))
           O 2%positive "pwd" 1%positive "ls" eq_refl eq_refl eq_refl).
Defined.

(** One step newer from [pwd], the newest line, leads to the bottom. *)
Lemma StepNewer_cases_witness :
  session_inv ls_pwd on_pwd ls_pwd_cells ∧
  handlehist next_free ls_pwd (StepNewer_request 100 5) on_pwd ttyp0 =
    Some (ls_pwd, at_bottom, deliverEmpty).
Proof.
  assert (session_inv ls_pwd on_pwd ls_pwd_cells) as H by by_evaluation.
  split; [exact H|].
  exact (proj2 (proj2
           (StepNewer_cases next_free ls_pwd on_pwd ls_pwd_cells 100 5 O ""
              ttyp0 H))
           1%nat 2%positive "pwd" eq_refl eq_refl eq_refl).
Defined.

(** Older and newer again from the bottom of [ls], [pwd]. *)
Lemma older_then_newer_witness :
  session_inv ls_pwd at_bottom ls_pwd_cells ∧
  ∃ h1 x,
    handlehist next_free ls_pwd (StepOlder_request 100 5) at_bottom ttyp0 =
      Some (ls_pwd, h1, deliverText x) ∧
    handlehist next_free ls_pwd (StepNewer_request 100 5) h1 ttyp0 =
      Some (ls_pwd, at_bottom, deliverEmpty).
Proof.
  assert (session_inv ls_pwd at_bottom ls_pwd_cells) as H by by_evaluation.
  split; [exact H|].
  apply (proj1 (older_then_newer next_free ls_pwd at_bottom ls_pwd_cells
                  100 5 O "" O "" ttyp0 H eq_refl)).
  discriminate.
Defined.

(** On the empty history the step newer that follows a step older alerts
    the terminal. *)
Lemma older_then_newer_on_empty :
  session_inv ∅ new_session [] ∧ current new_session = None ∧
  handlehist next_free ∅ (StepOlder_request 100 5) new_session ttyp0 =
    Some (∅, new_session, signalAlert) ∧
  handlehist next_free ∅ (StepNewer_request 100 5) new_session ttyp0 =
    Some (∅, new_session, signalAlert) ∧
  signalAlert ≠ deliverEmpty.
Proof. split_and!; [by_evaluation|reflexivity..|discriminate]. Qed.

(** Recording [make] while the cursor is on [ls]. *)
Lemma Record_appends_witness :
  session_inv ls_pwd on_ls ls_pwd_cells ∧
  ∃ m' a h',
    handlehist next_free ls_pwd (Record_request 100 5 "make") on_ls ttyp0 =
      Some (m', h', noDelivery) ∧
    h' = {| pid := 100; dev := 5; lines := Some a; current := None |} ∧
    ls_pwd !! a = None ∧
    session_inv m' h' (ls_pwd_cells ++ [(a, "make")]).
Proof.
  assert (session_inv ls_pwd on_ls ls_pwd_cells) as H by by_evaluation.
  split; [exact H|].
  destruct (proj1 (Record_appends next_free next_free_fresh ls_pwd on_ls
                     ls_pwd_cells 100 5 ttyp0 H) "make")
    as (m' & a & h' & Hrun & Hh' & Hnew & Hinv & _); [discriminate|].
  exists m', a, h'. split_and!; [exact Hrun|exact Hh'|exact Hnew|exact Hinv].
Defined.

(** The entry recorded for a line that starts with a NUL byte holds the
    empty text. *)
Lemma Record_cuts_at_nul :
  nul_ls ≠ EmptyString ∧
  handlehist next_free ∅ (Record_request 100 5 nul_ls) new_session ttyp0 =
    Some ({[ 1%positive := {| prev := None; text := ""; next := None |} ]},
          {| pid := 100; dev := 5; lines := Some 1%positive;
             current := None |},
          noDelivery) ∧
  EmptyString ≠ nul_ls.
Proof. split; [done|]. split; [reflexivity|done]. Qed.

(** A sweep while process 100 is gone and process 200 cannot be
    signalled. *)
Lemma sweep_reaps_the_dead_witness :
  store_inv two_sessions two_sessions_cells ∧
  ∃ m',
    cleanup only_100_gone two_sessions [on_pwd; other_session] =
      Some (m', [other_session]) ∧
    m' !! 1%positive = None ∧ m' !! 2%positive = None ∧
    session_inv m' other_session [(3%positive, "make")].
Proof.
  assert (store_inv two_sessions two_sessions_cells) as H by by_evaluation.
  split; [exact H|].
  destruct (sweep_reaps_the_dead only_100_gone two_sessions
              two_sessions_cells H) as (m' & Hrun & Hgone & Hkept & _).
  exists m'. split_and!.
  - exact Hrun.
  - apply (Hgone on_pwd ls_pwd_cells); [left|reflexivity|by_evaluation].
  - apply (Hgone on_pwd ls_pwd_cells); [left|reflexivity|by_evaluation].
  - apply (Hkept other_session [(3%positive, "make")]); [right; left|reflexivity].
Defined.

(** The invariant in the state with [ls] and [pwd] recorded and the cursor
    on [pwd], at cell 2: the cursor points to an allocated cell of the
    chain. *)
Lemma cursor_stays_in_chain_witness :
  reachable next_free (ls_pwd, [on_pwd]) ∧
  current on_pwd = Some 2%positive ∧
  ∃ cs, session_inv ls_pwd on_pwd cs ∧
        2%positive ∈ cs.*1 ∧ is_Some (ls_pwd !! 2%positive).
Proof.
  split; [exact on_pwd_reachable|]. split; [reflexivity|].
  destruct (proj1 (cursor_stays_in_chain next_free next_free_fresh)
              ls_pwd [on_pwd] on_pwd on_pwd_reachable ltac:(left))
    as (cs & Hinv & Hcur).
  exists cs. split; [exact Hinv|]. exact (Hcur 2%positive eq_refl).
Defined.

(** A step older on the oldest line, [ls]. *)
Lemma steps_leave_the_chain_witness :
  session_inv ls_pwd on_ls ls_pwd_cells ∧
  ∃ c out,
    handlehist next_free ls_pwd (StepOlder_request 100 5) on_ls ttyp0 =
      Some (ls_pwd, set_current on_ls c, out) ∧
    session_inv ls_pwd (set_current on_ls c) ls_pwd_cells.
Proof.
  assert (session_inv ls_pwd on_ls ls_pwd_cells) as H by by_evaluation.
  split; [exact H|].
  exact (proj1 (steps_leave_the_chain next_free ls_pwd on_ls ls_pwd_cells
                  100 5 O "" ttyp0 H)).
Defined.

(** ** The further properties at sample states *)

(** A request to record the first two bytes of [make], with the cursor on
    [ls]. *)
Lemma kept_text_fits_the_buffer_witness :
  session_inv ls_pwd on_ls ls_pwd_cells ∧ 2%nat ≠ O ∧
  ∃ m' h' a kept rest,
    handlehist next_free ls_pwd (Ttyhelper TH_HIST_KEEP 100 5 2 "make") on_ls
      ttyp0 = Some (m', h', noDelivery) ∧
    lines h' = Some a ∧ ls_pwd !! a = None ∧
    text <$> m' !! a = Some kept ∧
    "make" = kept +:+ rest ∧
    (String.length kept ≤ 2)%nat ∧
    nul_free kept = true ∧
    ((String.length kept < 2)%nat →
     rest = EmptyString ∨ ∃ r, rest = String NUL r).
Proof.
  assert (session_inv ls_pwd on_ls ls_pwd_cells) as H by by_evaluation.
  split; [exact H|]. split; [discriminate|].
  exact (kept_text_fits_the_buffer next_free next_free_fresh ls_pwd on_ls
           ls_pwd_cells 100 5 2%nat "make" ttyp0 H ltac:(discriminate)).
Defined.

(** The text [pwd] in the state with [ls] and [pwd] recorded. *)
Lemma stored_texts_have_no_nul_witness :
  reachable next_free (ls_pwd, [at_bottom]) ∧ nul_free "pwd" = true.
Proof.
  split; [exact ls_pwd_reachable|].
  exact (stored_texts_have_no_nul next_free ls_pwd [at_bottom] 2%positive
           {| prev := Some 1%positive; text := "pwd"; next := None |}
           ls_pwd_reachable eq_refl).
Defined.

(** Recording [make] with the cursor on [ls], then one step older. *)
Lemma record_then_older_witness :
  session_inv ls_pwd on_ls ls_pwd_cells ∧
  ∃ m' h1 h2,
    handlehist next_free ls_pwd (Record_request 100 5 "make") on_ls ttyp0 =
      Some (m', h1, noDelivery) ∧
    handlehist next_free m' (StepOlder_request 100 5) h1 ttyp0 =
      Some (m', h2, deliverText "make") ∧
    is_Some (current h2) ∧ current h2 = lines h2.
Proof.
  assert (session_inv ls_pwd on_ls ls_pwd_cells) as H by by_evaluation.
  split; [exact H|].
  exact (record_then_older next_free next_free_fresh ls_pwd on_ls
           ls_pwd_cells 100 5 "make" ttyp0 H ltac:(discriminate)).
Defined.

(** Newer and older, and older and newer, from [pwd]. *)
Lemma older_and_newer_are_inverse_witness :
  session_inv ls_pwd on_pwd ls_pwd_cells ∧
  (∃ h1 out,
     handlehist next_free ls_pwd (StepNewer_request 100 5) on_pwd ttyp0 =
       Some (ls_pwd, h1, out) ∧
     handlehist next_free ls_pwd (StepOlder_request 100 5) h1 ttyp0 =
       Some (ls_pwd, on_pwd, deliverText "pwd")) ∧
  (∃ h1 y,
     handlehist next_free ls_pwd (StepOlder_request 100 5) on_pwd ttyp0 =
       Some (ls_pwd, h1, deliverText y) ∧
     handlehist next_free ls_pwd (StepNewer_request 100 5) h1 ttyp0 =
       Some (ls_pwd, on_pwd, deliverText "pwd")).
Proof.
  assert (session_inv ls_pwd on_pwd ls_pwd_cells) as H by by_evaluation.
  split; [exact H|].
  destruct (older_and_newer_are_inverse next_free ls_pwd on_pwd ls_pwd_cells
              1%nat 2%positive "pwd" 100 5 ttyp0 H eq_refl eq_refl)
    as [Hnewer Holder].
  split; [exact Hnewer|]. apply Holder. discriminate.
Defined.

(** Three steps older from the bottom of [ls], [pwd]. *)
Lemma older_stops_at_the_oldest_witness :
  session_inv ls_pwd at_bottom ls_pwd_cells ∧
  handlehist_seq next_free ls_pwd (replicate 3 (StepOlder_request 100 5))
    at_bottom ttyp0 =
    Some (ls_pwd, on_ls, [deliverText "pwd"; deliverText "ls"; noDelivery]).
Proof.
  assert (session_inv ls_pwd at_bottom ls_pwd_cells) as H by by_evaluation.
  split; [exact H|].
  exact (older_stops_at_the_oldest next_free ls_pwd at_bottom ls_pwd_cells
           100 5 1%nat ttyp0 H eq_refl ltac:(discriminate)).
Defined.

(** Three steps newer from [ls]. *)
Lemma newer_walks_to_the_bottom_witness :
  session_inv ls_pwd on_ls ls_pwd_cells ∧
  handlehist_seq next_free ls_pwd (replicate 3 (StepNewer_request 100 5))
    on_ls ttyp0 =
    Some (ls_pwd, at_bottom, [deliverText "pwd"; deliverEmpty; signalAlert]).
Proof.
  assert (session_inv ls_pwd on_ls ls_pwd_cells) as H by by_evaluation.
  split; [exact H|].
  exact (newer_walks_to_the_bottom next_free ls_pwd on_ls ls_pwd_cells
           O 1%positive "ls" 100 5 1%nat ttyp0 H eq_refl eq_refl).
Defined.

(** The keys in the store with the sessions of processes 100 and 200: they
    differ, and the lookup finds the session of process 200 behind the one
    of process 100. *)
Lemma keys_stay_unique_witness :
  reachable next_free (two_sessions, [on_pwd; other_session]) ∧
  NoDup [key on_pwd; key other_session] ∧
  lookup_hist [on_pwd; other_session] 100 5 = Some 0%nat ∧
  lookup_hist [on_pwd; other_session] 200 5 = Some 1%nat.
Proof.
  split; [exact two_sessions_reachable|].
  destruct (keys_stay_unique next_free two_sessions [on_pwd; other_session]
              two_sessions_reachable) as [Hnd Hfind].
  split; [exact Hnd|]. split.
  - exact (Hfind 0%nat on_pwd eq_refl).
  - exact (Hfind 1%nat other_session eq_refl).
Defined.

(** The cells in the state with [ls] and [pwd] recorded, and the sweep
    when process 100 is gone. *)
Lemma no_line_leaks_witness :
  reachable next_free (ls_pwd, [at_bottom]) ∧
  cleanup only_100_gone ls_pwd [at_bottom] = Some (∅, []).
Proof.
  split; [exact ls_pwd_reachable|].
  destruct (no_line_leaks next_free next_free_fresh ls_pwd [at_bottom]
              ls_pwd_reachable) as (ss & _ & _ & _ & Hsweep).
  apply Hsweep. repeat constructor.
Defined.

(** Process 100 records [make]; the session of process 200 is as before. *)
Lemma other_sessions_untouched_witness :
  store_inv two_sessions two_sessions_cells ∧
  ∃ m' hs' out,
    main_iteration next_free [ttyp0] all_alive 0 10
      (Record_request 100 5 "make") two_sessions [on_pwd; other_session] =
      Some (m', hs', out) ∧
    other_session ∈ hs' ∧
    session_inv m' other_session [(3%positive, "make")] ∧
    m' !! 3%positive = two_sessions !! 3%positive.
Proof.
  assert (store_inv two_sessions two_sessions_cells) as H by by_evaluation.
  split; [exact H|].
  destruct (other_sessions_untouched next_free next_free_fresh [ttyp0]
              all_alive 0 10 (Record_request 100 5 "make") two_sessions
              two_sessions_cells H) as (m' & hs' & out & Hrun & Hother).
  exists m', hs', out. split; [exact Hrun|].
  destruct (Hother other_session [(3%positive, "make")])
    as (Hin & Hinv & Hcells); [right; left|discriminate|reflexivity|].
  split; [exact Hin|]. split; [exact Hinv|]. apply Hcells. left.
Defined.

(** Two sweeps while process 100 is gone. *)
Lemma second_sweep_changes_nothing_witness :
  store_inv two_sessions two_sessions_cells ∧
  ∃ m' hs',
    cleanup only_100_gone two_sessions [on_pwd; other_session] =
      Some (m', hs') ∧
    cleanup only_100_gone m' hs' = Some (m', hs').
Proof.
  assert (store_inv two_sessions two_sessions_cells) as H by by_evaluation.
  split; [exact H|].
  exact (second_sweep_changes_nothing only_100_gone two_sessions
           two_sessions_cells H).
Defined.

(** Device 5 is the console and [ttyp0]; the request is served on [ttyp0],
    which the directory gave last. *)
Lemma findtty_takes_the_last_entry_witness :
  findttys (Some dev_dir) =
    Some [ {| name := "ttyp0"; tty_dev := 5 |};
           {| name := "tty0"; tty_dev := 1024 |};
           {| name := "console"; tty_dev := 5 |} ] ∧
  findtty [ {| name := "ttyp0"; tty_dev := 5 |};
            {| name := "tty0"; tty_dev := 1024 |};
            {| name := "console"; tty_dev := 5 |} ] 5 =
    Some {| name := "ttyp0"; tty_dev := 5 |} ∧
  ∃ des1 de des2,
    dev_dir = des1 ++ de :: des2 ∧
    tty_name (d_name de) = true ∧ st_rdev de = Some 5 ∧
    {| name := "ttyp0"; tty_dev := 5 |} = {| name := d_name de; tty_dev := 5 |} ∧
    ∀ de', de' ∈ des2 → tty_name (d_name de') = true → st_rdev de' ≠ Some 5.
Proof.
  split; [reflexivity|]. split; [reflexivity|].
  exact (proj1 (findtty_takes_the_last_entry dev_dir _ 5 eq_refl)
           {| name := "ttyp0"; tty_dev := 5 |} eq_refl).
Defined.

(** The buffer after the four rounds. *)
Lemma buffer_size_doubles_witness :
  ∃ m' hs' log,
    main_loop next_free 2147483647 [ttyp0] 0 1 ∅ [] four_rounds =
      Next_round 2 m' hs' log ∧
    2 = 1 * 2 ^ Z.of_nat 1 ∧ 2 ≤ 2147483647.
Proof.
  eexists _, _, _. split; [reflexivity|].
  destruct (buffer_size_doubles next_free 2147483647 [ttyp0] 0 1 ∅ []
              four_rounds _ _ _ _ eq_refl) as [Hsize Hmax].
  split; [exact Hsize|]. apply Hmax. discriminate.
Defined.

(** The console during the four rounds: four opens, three closes. *)
Lemma console_stays_open_when_discarding_witness :
  ∃ size' m' hs' log,
    main_loop next_free 2147483647 [ttyp0] 0 1 ∅ [] four_rounds =
      Next_round size' m' hs' log ∧
    length (filter (λ e, is_open e) log) = 4%nat ∧
    (length (filter (λ e, is_close e) log) + 1)%nat =
      length (filter (λ e, is_open e) log).
Proof.
  eexists _, _, _, _. split; [reflexivity|].
  exact (console_stays_open_when_discarding next_free 2147483647 [ttyp0] 0 1
           ∅ [] four_rounds _ _ _ _ eq_refl).
Defined.

(** The four rounds are defined. *)
Lemma main_loop_is_defined_witness :
  0 < 1 ∧
  main_loop next_free 2147483647 [ttyp0] 0 1 ∅ [] four_rounds ≠
    Undefined_round.
Proof.
  split; [lia|].
  apply (main_loop_is_defined next_free next_free_fresh 2147483647 [ttyp0] 0
           1 four_rounds); [lia|vm_compute; discriminate].
Defined.
